(** * aeslib: shared functions of the libfprint AuthenTec drivers

    A shallow embedding of [libfprint/aeslib.c] and the properties its
    specification states about it.

    - Part I embeds the batched register writer ([aes_write_regv],
      [continue_write_regv], [do_write_regv], [write_regv_trf_complete]).
      The C code is callback driven: the session [write_regv_data] lives on
      the heap and is re-entered from the USB completion handler.  The
      embedding threads a [world] (session, transfer in flight, log of what
      the outside observed) through the handlers and returns [None] where the
      C code leaves defined behaviour (a read outside [regs], signed
      overflow, a write outside the transfer buffer).  Loops are recursive
      functions on a counter that bounds their passes; Part IV shows that
      the bound is never reached under the contract of the functions.
      [continue_write_regv] indexes [regs] with an [int] although
      [num_regs] is an [unsigned int]: the properties of the writer are
      stated for sequences of at most [INT_MAX] entries, and Part IV follows
      the operation out of defined behaviour on longer ones.
    - Part II embeds [aes_assemble_image] over a byte memory that records
      every load and store.
    - Part III describes the register writer on lists ([batches], [play],
      [served]); Part IV proves that the embedding follows that description
      and states the properties of the register writer; Part V states those
      of the image assembler.
    - Parts VI and VII add properties of both that the code shows beyond
      these: the transfer in flight, the cursor after a failure, the length
      of the batches, an odd height, the order of the accesses. *)

From Stdlib Require Import ZArith List Bool Lia Arith.
From Equations Require Import Equations.
Import ListNotations.

Local Open Scope Z_scope.

(* ------------------------------------------------------------------------- *)
(** * C integer conversions *)

(** [unsigned int] is 32 bits, [size_t] 64 bits, [unsigned char] 8 bits;
    [int] is 32 bits in two's complement. *)
Definition to_uint (x : Z) : Z := x mod 2 ^ 32.
Definition to_size_t (x : Z) : Z := x mod 2 ^ 64.
Definition to_uchar (x : Z) : Z := x mod 2 ^ 8.
Definition to_int (x : Z) : Z := (x + 2 ^ 31) mod 2 ^ 32 - 2 ^ 31.
Definition INT_MAX : Z := 2 ^ 31 - 1.

(** Error numbers of <errno.h> (Linux). *)
Definition EIO : Z := 5.
Definition EPROTO : Z := 71.

Definition MAX_REGWRITES_PER_REQUEST : Z := 16.
Definition BULK_TIMEOUT : Z := 4000.

(** The direction bits of <libusb.h>, a header that is not part of this
    source file; what follows uses them through [EP_IN] and [EP_OUT] only. *)
Definition LIBUSB_ENDPOINT_IN : Z := 128.
Definition LIBUSB_ENDPOINT_OUT : Z := 0.
Definition EP_IN : Z := Z.lor 1 LIBUSB_ENDPOINT_IN.
Definition EP_OUT : Z := Z.lor 2 LIBUSB_ENDPOINT_OUT.

(** The option monad: [None] is undefined behaviour of the C program, or a
    loop that has used up its counter. *)
Definition bind {A B : Type} (m : option A) (k : A -> option B) : option B :=
  match m with
  | Some a => k a
  | None => None
  end.

Notation "x <- m ;; k" := (bind m (fun x => k))
  (at level 61, m at next level, right associativity).
Notation "' p <- m ;; k" := (bind m (fun x => let p := x in k))
  (at level 61, p pattern, m at next level, right associativity).

(* ------------------------------------------------------------------------- *)
(** * Part I: the batched register writer *)

(** [struct aes_regwrite] of aeslib.h: two [unsigned char] fields. *)
Record aes_regwrite : Type := mk_regwrite {
  reg : Z;
  value : Z
}.

(** [struct write_regv_data].  The device and the user data are opaque
    handles; the callback is the caller's and shows up as a [Callback]
    event when it is invoked. *)
Record write_regv_data : Type := mk_wdata {
  imgdev : Z;
  num_regs : Z;
  regs : list aes_regwrite;
  offset : Z;
  user_data : Z
}.

Definition set_offset (o : Z) (wdata : write_regv_data) : write_regv_data :=
  {| imgdev := imgdev wdata;
     num_regs := num_regs wdata;
     regs := regs wdata;
     offset := o;
     user_data := user_data wdata |}.

(** Modelled from the spec: the completion status of the transport, of which
    the source only names [FP_URB_COMPLETED] (ok / error / canceled). *)
Inductive libusb_urb_cb_status : Type :=
  | FP_URB_COMPLETED
  | FP_URB_ERROR
  | FP_URB_CANCELLED.

Definition status_completed (s : libusb_urb_cb_status) : bool :=
  match s with
  | FP_URB_COMPLETED => true
  | _ => false
  end.

(** [struct libusb_bulk_transfer]: endpoint, buffer and its length. *)
Record libusb_bulk_transfer : Type := mk_msg {
  msg_endpoint : Z;
  msg_data : list Z;
  msg_length : Z
}.

(** What the transport answers to one call of [libusb_async_bulk_transfer]:
    it refuses the transfer (a NULL handle), or accepts it and later
    completes it once, with a status and the number of bytes moved. *)
Inductive transport_reply : Type :=
  | Rejected
  | Completes (status : libusb_urb_cb_status) (actual_length : Z).

(** What the outside observes of one operation, in order of occurrence.
    [Submit first data accepted] is one call of
    [libusb_async_bulk_transfer]: [first] is [wdata->offset] at the call,
    [data] the buffer handed over.  [Callback dev status user_data] is one
    invocation of the completion callback. *)
Inductive event : Type :=
  | Submit (first : Z) (data : list Z) (accepted : bool)
  | Callback (dev : Z) (status : Z) (ud : Z).

(** A transfer the transport has accepted and not yet completed. *)
Record urb : Type := mk_urb {
  urb_msg : libusb_bulk_transfer;
  urb_status : libusb_urb_cb_status;
  urb_actual_length : Z
}.

Record world : Type := mk_world {
  session : write_regv_data;
  inflight : option urb;
  log : list event;
  submissions : nat
}.

Definition with_session (f : write_regv_data -> write_regv_data) (w : world) : world :=
  {| session := f (session w);
     inflight := inflight w;
     log := log w;
     submissions := submissions w |}.

(** [wdata->callback(wdata->imgdev, status, wdata->user_data)]. *)
Definition callback (status : Z) (w : world) : world :=
  {| session := session w;
     inflight := inflight w;
     log := log w ++ [Callback (imgdev (session w)) status (user_data (session w))];
     submissions := submissions w |}.

(** [wdata->regs[i]]; a read outside the array is undefined. *)
Definition regs_at (wdata : write_regv_data) (i : Z) : option aes_regwrite :=
  if i <? 0 then None else nth_error (regs wdata) (Z.to_nat i).

Section Transport.

(** The behaviour of the transport in one operation: its answer to the
    [k]-th call of [libusb_async_bulk_transfer], given the buffer. *)
Variable transport : nat -> list Z -> transport_reply.

Definition libusb_async_bulk_transfer (first : Z) (msg : libusb_bulk_transfer)
    (w : world) : bool * world :=
  match transport (submissions w) (msg_data msg) with
  | Rejected =>
      (false,
       {| session := session w;
          inflight := inflight w;
          log := log w ++ [Submit first (msg_data msg) false];
          submissions := S (submissions w) |})
  | Completes status actual_length =>
      (true,
       {| session := session w;
          inflight := Some (mk_urb msg status actual_length);
          log := log w ++ [Submit first (msg_data msg) true];
          submissions := S (submissions w) |})
  end.

(** The loop of [do_write_regv]:
    [for (i = offset; i < offset + num; i++)], appending two bytes per
    register write to the buffer of [alloc_size] bytes. *)
Fixpoint pack_regs (fuel : nat) (wdata : write_regv_data) (i bound alloc_size : Z)
    (data : list Z) : option (list Z) :=
  match fuel with
  | O => None
  | S fuel' =>
      if i <? bound then
        regwrite <- regs_at wdata i ;;
        if Z.of_nat (length data) + 2 <=? alloc_size then
          pack_regs fuel' wdata (to_uint (i + 1)) bound alloc_size
                    (data ++ [reg regwrite; value regwrite])
        else None
      else Some data
  end.

(** [do_write_regv]: write from [wdata->offset] to [upper_bound]
    (inclusive) of [wdata->regs].  Returns the C return value. *)
Definition do_write_regv (w : world) (upper_bound : Z) : option (Z * world) :=
  let wdata := session w in
  let offset := offset wdata in
  let num := to_uint (upper_bound - offset + 1) in
  let alloc_size := to_size_t (to_uint (num * 2)) in
  data <- pack_regs (S (Z.to_nat num)) wdata offset (to_uint (offset + num))
                    alloc_size [] ;;
  let msg := {| msg_endpoint := EP_OUT;
                msg_data := data;
                msg_length := to_int alloc_size |} in
  let (urbh, w') := libusb_async_bulk_transfer offset msg w in
  if urbh then Some (0, w') else Some (- EIO, w').

(** The first loop of [continue_write_regv]: skip all zeros and ensure
    there is still work to do. *)
Inductive skip_result : Type :=
  | AllWritten
  | NextWrite (offset : Z).

Fixpoint skip_zeros (fuel : nat) (wdata : write_regv_data) (offset : Z)
    : option skip_result :=
  match fuel with
  | O => None
  | S fuel' =>
      if offset >=? num_regs wdata then Some AllWritten
      else
        r <- regs_at wdata offset ;;
        if reg r =? 0 then skip_zeros fuel' wdata (to_uint (offset + 1))
        else Some (NextWrite offset)
  end.

(** The second loop of [continue_write_regv]:
    [for (i = offset; i <= upper_bound; i++)] with [int i] compared
    against [unsigned int upper_bound]; returns the final [upper_bound]. *)
Fixpoint find_zero (fuel : nat) (wdata : write_regv_data) (i upper_bound : Z)
    : option Z :=
  match fuel with
  | O => None
  | S fuel' =>
      if to_uint i <=? upper_bound then
        r <- regs_at wdata i ;;
        if reg r =? 0 then Some (to_uint (i - 1))
        else if i <? INT_MAX then find_zero fuel' wdata (i + 1) upper_bound
        else None
      else Some upper_bound
  end.

(** [continue_write_regv]: write the next batch of registers to be
    written, or if there are no more, indicate completion to the caller. *)
Definition continue_write_regv (w : world) : option world :=
  let wdata := session w in
  let offset := offset wdata in
  r <- skip_zeros (S (Z.to_nat (num_regs wdata - offset))) wdata offset ;;
  match r with
  | AllWritten => Some (callback 0 w)
  | NextWrite offset =>
      let w := with_session (set_offset offset) w in
      let regs_remaining := to_uint (num_regs wdata - offset) in
      let limit := Z.min regs_remaining MAX_REGWRITES_PER_REQUEST in
      let upper_bound := to_uint (offset + limit - 1) in
      upper_bound <- find_zero (S (Z.to_nat limit)) wdata (to_int offset) upper_bound ;;
      ' (r, w) <- do_write_regv w (to_int upper_bound) ;;
      if r <? 0 then Some (callback r w)
      else Some (with_session (set_offset (to_uint (upper_bound + 1))) w)
  end.

(** [write_regv_trf_complete]: the completion of the transfer in flight;
    continues the transaction. *)
Definition write_regv_trf_complete (status : libusb_urb_cb_status)
    (rqlength actual_length : Z) (w : world) : option world :=
  if negb (status_completed status) then Some (callback (- EIO) w)
  else if negb (rqlength =? actual_length) then Some (callback (- EPROTO) w)
  else continue_write_regv w.

(** [aes_write_regv]: a fresh session with the cursor at 0. *)
Definition aes_write_regv (dev : Z) (regs : list aes_regwrite) (num_regs : Z)
    (user_data : Z) : option world :=
  let wdata := {| imgdev := dev;
                  num_regs := num_regs;
                  regs := regs;
                  offset := 0;
                  user_data := user_data |} in
  continue_write_regv
    {| session := wdata; inflight := None; log := []; submissions := 0 |}.

(** The transport's event handling: it completes the transfer in flight,
    if there is one, by calling [write_regv_trf_complete] on it. *)
Definition handle_events (w : world) : option world :=
  match inflight w with
  | None => Some w
  | Some u =>
      write_regv_trf_complete (urb_status u) (msg_length (urb_msg u))
        (urb_actual_length u)
        {| session := session w;
           inflight := None;
           log := log w;
           submissions := submissions w |}
  end.

Fixpoint handle_events_n (n : nat) (w : world) : option world :=
  match n with
  | O => Some w
  | S n' => w' <- handle_events w ;; handle_events_n n' w'
  end.

(** One operation: [aes_write_regv] followed by [n] rounds of event
    handling. *)
Definition operation (dev : Z) (regs : list aes_regwrite) (num_regs : Z)
    (user_data : Z) (n : nat) : option world :=
  w <- aes_write_regv dev regs num_regs user_data ;;
  handle_events_n n w.

End Transport.

Definition always_ok : nat -> list Z -> transport_reply :=
  fun _ data => Completes FP_URB_COMPLETED (Z.of_nat (length data)).

Definition rw (r v : Z) : aes_regwrite := mk_regwrite r v.

(* ------------------------------------------------------------------------- *)
(** * Part II: the image assembler *)

(** One access of [aes_assemble_image] to one of its two buffers: a read of
    [input[i]] or a write of [output[i]]. *)
Inductive access : Type :=
  | Load (i : Z)
  | Store (i : Z) (v : Z).

(** The two buffers (assumed not to overlap) and the accesses made so far,
    oldest first. *)
Record image_mem : Type := mk_image_mem {
  raw : list Z;
  img : list Z;
  accesses : list access
}.

Fixpoint list_set {A : Type} (n : nat) (v : A) (l : list A) : list A :=
  match l, n with
  | [], _ => []
  | _ :: l', O => v :: l'
  | x :: l', S n' => x :: list_set n' v l'
  end.

(** [input[p]]: a read outside the raw buffer is undefined. *)
Definition load (m : image_mem) (p : Z) : option (Z * image_mem) :=
  if (0 <=? p) && (p <? Z.of_nat (length (raw m))) then
    Some (nth (Z.to_nat p) (raw m) 0,
          {| raw := raw m; img := img m; accesses := accesses m ++ [Load p] |})
  else None.

(** [output[i] = v]: the value is converted to [unsigned char]; a write
    outside the output buffer is undefined. *)
Definition store (m : image_mem) (i v : Z) : option image_mem :=
  if (0 <=? i) && (i <? Z.of_nat (length (img m))) then
    Some {| raw := raw m;
            img := list_set (Z.to_nat i) (to_uchar v) (img m);
            accesses := accesses m ++ [Store i v] |}
  else None.

(** The body of the inner loop without its [input++]: two samples of the
    byte at [input] go to rows [row] and [row + 1] of column [column]. *)
Definition assemble_pair (width column row input : Z) (m : image_mem)
    : option image_mem :=
  ' (b, m) <- load m input ;;
  m <- store m (to_size_t (to_size_t (width * row) + column))
             (Z.land b 7 * 36) ;;
  ' (b, m) <- load m input ;;
  store m (to_size_t (to_size_t (width * to_size_t (row + 1)) + column))
        (Z.shiftr (Z.land b 112) 4 * 36).

(** The inner loop, [for (row = 0; row < height; row += 2)]; [input] is the
    index in the raw buffer the pointer [input] stands at. *)
Fixpoint assemble_rows (fuel : nat) (width height column row input : Z)
    (m : image_mem) : option (Z * image_mem) :=
  match fuel with
  | O => None
  | S fuel' =>
      if row <? height then
        m <- assemble_pair width column row input m ;;
        assemble_rows fuel' width height column (to_size_t (row + 2)) (input + 1) m
      else Some (input, m)
  end.

(** The outer loop, [for (column = 0; column < width; column++)]. *)
Fixpoint assemble_columns (fuel : nat) (width height column input : Z)
    (m : image_mem) : option (Z * image_mem) :=
  match fuel with
  | O => None
  | S fuel' =>
      if column <? width then
        ' (input, m) <- assemble_rows (S (Z.to_nat height)) width height column 0 input m ;;
        assemble_columns fuel' width height (to_size_t (column + 1)) input m
      else Some (input, m)
  end.

Definition aes_assemble_image (input : list Z) (width height : Z) (output : list Z)
    : option image_mem :=
  ' (_, m) <- assemble_columns (S (Z.to_nat width)) width height 0 0
                {| raw := input; img := output; accesses := [] |} ;;
  Some m.

(** The accesses of a trace, by kind. *)
Definition store_indices (t : list access) : list Z :=
  flat_map (fun a => match a with Store i _ => [i] | Load _ => [] end) t.

Definition load_indices (t : list access) : list Z :=
  flat_map (fun a => match a with Load p => [p] | Store _ _ => [] end) t.

(** The raw byte of the pixel at index [i] of the row-major image: bytes come
    column by column, one byte per pair of rows. *)
Definition source_index (width height i : Z) : Z :=
  (i mod width) * (height / 2) + (i / width) / 2.

(** The pixel the specification asks for at index [i] of the image: the low
    three bits of its raw byte on an even row, bits 4 to 6 on an odd row,
    times 36. *)
Definition pixel (input : list Z) (width height i : Z) : Z :=
  let b := nth (Z.to_nat (source_index width height i)) input 0 in
  if Z.even (i / width) then Z.land b 7 * 36 else Z.shiftr (Z.land b 112) 4 * 36.

(** What holds of the memory once [consumed] raw bytes have been used: the
    pixels of these bytes, and no others, have been stored, once each and
    with the value the specification asks for; each of these bytes has been
    loaded twice, in order. *)
Definition assembled (input : list Z) (width height consumed : Z) (m : image_mem)
    : Prop :=
  raw m = input /\
  Z.of_nat (length (img m)) = width * height /\
  NoDup (store_indices (accesses m)) /\
  (forall i, In i (store_indices (accesses m)) <->
             0 <= i < width * height /\ source_index width height i < consumed) /\
  (forall i, 0 <= i < width * height -> source_index width height i < consumed ->
             nth (Z.to_nat i) (img m) 0 = pixel input width height i) /\
  load_indices (accesses m)
    = flat_map (fun p => [p; p]) (map Z.of_nat (seq 0 (Z.to_nat consumed))) /\
  (forall i v, In (Store i v) (accesses m) -> v = pixel input width height i).

(* ------------------------------------------------------------------------- *)
(** * Part III: the register writer on lists *)

(** A barrier is a write to register 0. *)
Definition is_barrier (r : aes_regwrite) : bool := reg r =? 0.

(** The two bytes of each write, in order. *)
Definition encode (b : list aes_regwrite) : list Z :=
  flat_map (fun r => [reg r; value r]) b.

(** The longest prefix of [l] of at most [n] writes and without a barrier. *)
Fixpoint batch_run (n : nat) (l : list aes_regwrite) : list aes_regwrite :=
  match n, l with
  | S n', r :: l' => if is_barrier r then [] else r :: batch_run n' l'
  | _, _ => []
  end.

(** The batches of the writes [l], which start at index [pos] of the
    sequence: barriers are dropped; a batch starts at the first write that is
    not a barrier and runs up to the next barrier, for at most 16 writes. *)
Equations? batches (pos : Z) (l : list aes_regwrite) : list (Z * list aes_regwrite)
  by wf (length l) lt :=
  batches pos [] := [];
  batches pos (r :: l') :=
    if is_barrier r then batches (pos + 1) l'
    else (pos, r :: batch_run 15 l')
         :: batches (pos + 1 + Z.of_nat (length (batch_run 15 l')))
                    (skipn (length (batch_run 15 l')) l').
Proof.
  rewrite length_skipn. lia.
Qed.

Section Play.

Variable transport : nat -> list Z -> transport_reply.
Variables dev ud : Z.

(** What the outside observes when the batches [bs] are submitted one after
    the other, the first of them as submission number [k]. *)
Fixpoint play (k : nat) (bs : list (Z * list aes_regwrite)) : list event :=
  match bs with
  | [] => [Callback dev 0 ud]
  | (pos, b) :: bs' =>
      match transport k (encode b) with
      | Rejected => [Submit pos (encode b) false; Callback dev (- EIO) ud]
      | Completes status actual_length =>
          Submit pos (encode b) true
          :: (if negb (status_completed status) then [Callback dev (- EIO) ud]
              else if negb (2 * Z.of_nat (length b) =? actual_length)
                   then [Callback dev (- EPROTO) ud]
                   else play (S k) bs')
      end
  end.

End Play.

Section Next.

Variable transport : nat -> list Z -> transport_reply.

(** The world after [do_write_regv] has handed the batch [b] of the writes
    at [pos] to the transport, and the value it returns. *)
Definition submitted (w : world) (pos : Z) (b : list aes_regwrite) : Z * world :=
  match transport (submissions w) (encode b) with
  | Rejected =>
      (- EIO,
       {| session := session w;
          inflight := inflight w;
          log := log w ++ [Submit pos (encode b) false];
          submissions := S (submissions w) |})
  | Completes status actual_length =>
      (0,
       {| session := session w;
          inflight :=
            Some (mk_urb (mk_msg EP_OUT (encode b) (2 * Z.of_nat (length b)))
                         status actual_length);
          log := log w ++ [Submit pos (encode b) true];
          submissions := S (submissions w) |})
  end.

(** The world after one call of [continue_write_regv], read off the batches
    of the writes from the cursor on. *)
Definition next_world (w : world) : world :=
  let wdata := session w in
  match batches (offset wdata) (skipn (Z.to_nat (offset wdata)) (regs wdata)) with
  | [] => callback 0 w
  | (pos, b) :: _ =>
      let (r, w') := submitted (with_session (set_offset pos) w) pos b in
      if r <? 0 then callback r w'
      else with_session (set_offset (pos + Z.of_nat (length b))) w'
  end.

End Next.

(** A session the caller set up as the interface asks: [num_regs] is the
    number of writes in [regs], an [unsigned int]. *)
Definition session_ok (wdata : write_regv_data) : Prop :=
  num_regs wdata = Z.of_nat (length (regs wdata)) /\ num_regs wdata < 2 ^ 32.

(** Every entry of the sequence that is not a barrier has an index below
    [INT_MAX]: the [int] counter of [continue_write_regv] can stand on it
    and step on. *)
Definition writes_int_indexed (regs0 : list aes_regwrite) : Prop :=
  forall (i : nat) (r : aes_regwrite),
    nth_error regs0 i = Some r -> reg r <> 0 -> Z.of_nat i < INT_MAX.

(** The batches still to be submitted, read off the cursor. *)
Definition remaining (w : world) : list (Z * list aes_regwrite) :=
  batches (offset (session w))
          (skipn (Z.to_nat (offset (session w))) (regs (session w))).

(** What is still to be observed of an operation: nothing when no transfer
    is in flight, else the completion of that transfer and what follows. *)
Definition future (transport : nat -> list Z -> transport_reply) (w : world)
    : list event :=
  match inflight w with
  | None => []
  | Some u =>
      let dev := imgdev (session w) in
      let ud := user_data (session w) in
      if negb (status_completed (urb_status u)) then [Callback dev (- EIO) ud]
      else if negb (msg_length (urb_msg u) =? urb_actual_length u)
           then [Callback dev (- EPROTO) ud]
           else play transport dev ud (submissions w) (remaining w)
  end.

(** The state of a world [n] rounds of event handling into the operation on
    [regs]: the session is the caller's but for the cursor, which is within
    the sequence; the log so far and what is still to come make up [play] of
    the batches of [regs]; and at most [length (batches 0 regs) - n - 1]
    batches are left when a transfer is in flight. *)
Definition progress (transport : nat -> list Z -> transport_reply)
    (dev : Z) (regs0 : list aes_regwrite) (ud : Z) (n : nat) (w : world) : Prop :=
  imgdev (session w) = dev /\
  regs (session w) = regs0 /\
  num_regs (session w) = Z.of_nat (length regs0) /\
  user_data (session w) = ud /\
  0 <= offset (session w) <= num_regs (session w) /\
  log w ++ future transport w = play transport dev ud 0 (batches 0 regs0) /\
  (inflight w = None \/
   (n + length (remaining w) < length (batches 0 regs0))%nat).

(** The buffers handed to the transport and the statuses handed to the
    callback, in the order of the log. *)
Definition payloads (l : list event) : list (list Z) :=
  flat_map (fun e => match e with Submit _ d _ => [d] | Callback _ _ _ => [] end) l.

Definition statuses (l : list event) : list Z :=
  flat_map (fun e => match e with Callback _ s _ => [s] | Submit _ _ _ => [] end) l.

(** The submission of a batch, as an event. *)
Definition submit_of (accepted : bool) (pb : Z * list aes_regwrite) : event :=
  Submit (fst pb) (encode (snd pb)) accepted.


(** A write that is not a barrier. *)
Definition is_write (r : aes_regwrite) : bool := negb (is_barrier r).

Section Served.

Variable transport : nat -> list Z -> transport_reply.

(** [served k subs s]: the submissions [subs], numbered from [k] on, got the
    replies that lead to the callback status [s].  A rejected submission, a
    completion with a status other than [FP_URB_COMPLETED] or a completion of
    another length than requested is the last submission and decides the
    status; every submission before it was accepted and completed in full;
    the status is 0 when that holds of all submissions. *)
Inductive served : nat -> list event -> Z -> Prop :=
  | served_done k :
      served k [] 0
  | served_rejected k first data :
      transport k data = Rejected ->
      served k [Submit first data false] (- EIO)
  | served_failed k first data status actual_length :
      transport k data = Completes status actual_length ->
      status <> FP_URB_COMPLETED ->
      served k [Submit first data true] (- EIO)
  | served_mismatch k first data actual_length :
      transport k data = Completes FP_URB_COMPLETED actual_length ->
      actual_length <> Z.of_nat (length data) ->
      served k [Submit first data true] (- EPROTO)
  | served_ok k first data subs s :
      transport k data = Completes FP_URB_COMPLETED (Z.of_nat (length data)) ->
      served (S k) subs s ->
      served k (Submit first data true :: subs) s.

End Served.

(** What holds of a batch [b] at position [p] of the writes [l] that start
    at [pos]. *)
Definition batch_ok (pos : Z) (l : list aes_regwrite) (pb : Z * list aes_regwrite)
    : Prop :=
  let (p, b) := pb in
  pos <= p /\ (1 <= length b <= 16)%nat /\
  p + Z.of_nat (length b) <= pos + Z.of_nat (length l) /\
  b = firstn (length b) (skipn (Z.to_nat (p - pos)) l) /\
  Forall (fun r => is_barrier r = false) b.

(** ** The cursor, the transfer in flight and the accesses in order *)

(** The cursor a log accounts for: 0 before any submission; the start of the
    batch after a rejected submission (the cursor [do_write_regv] read); the
    index after the batch once a submission was accepted. *)
Definition cursor_step (o : Z) (e : event) : Z :=
  match e with
  | Submit first data true => first + Z.of_nat (length data) / 2
  | Submit first data false => first
  | Callback _ _ _ => o
  end.

Definition cursor_of (l : list event) : Z := fold_left cursor_step l 0.

(** The buffers of the submissions the transport accepted, in order. *)
Definition accepted (l : list event) : list (list Z) :=
  flat_map (fun e => match e with Submit _ d true => [d] | _ => [] end) l.

(** What holds of a world at round [n] besides [progress]: the cursor is the
    one the log accounts for; the accepted buffers hold the writes before the
    cursor; [libusb_async_bulk_transfer] was called once
    per [Submit] event and at most [n + 1] times; while a transfer is in
    flight the callback has not been invoked and the transfer is the last
    submission of the log; once the callback got status 0 no batch is left. *)
Definition flight_inv (n : nat) (w : world) : Prop :=
  offset (session w) = cursor_of (log w) /\
  concat (accepted (log w))
  = encode (filter is_write (firstn (Z.to_nat (offset (session w))) (regs (session w)))) /\
  length (payloads (log w)) = submissions w /\
  (submissions w <= S n)%nat /\
  match inflight w with
  | Some u =>
      statuses (log w) = [] /\
      exists pre first b,
        log w = pre ++ [Submit first (encode b) true] /\
        urb_msg u = mk_msg EP_OUT (encode b) (2 * Z.of_nat (length b)) /\
        (1 <= length b <= 16)%nat
  | None =>
      forall pre d u0, log w = pre ++ [Callback d 0 u0] -> remaining w = []
  end.

(** The accesses of one pass of the inner loop of [aes_assemble_image], for
    row pair [j] of column [column]: the raw byte is loaded for the sample of
    the even row, which is stored, and loaded again for the sample of the odd
    row, which is stored. *)
Definition pair_accesses (input : list Z) (width height column j : Z) : list access :=
  let p := column * (height / 2) + j in
  let b := nth (Z.to_nat p) input 0 in
  [Load p;
   Store (width * (2 * j) + column) (Z.land b 7 * 36);
   Load p;
   Store (width * (2 * j + 1) + column) (Z.shiftr (Z.land b 112) 4 * 36)].

(** The accesses of one column, row pair after row pair, and of the whole
    image, column after column. *)
Definition column_accesses (input : list Z) (width height column : Z) : list access :=
  flat_map (fun j => pair_accesses input width height column (Z.of_nat j))
           (seq 0 (Z.to_nat (height / 2))).

Definition image_accesses (input : list Z) (width height : Z) : list access :=
  flat_map (fun c => column_accesses input width height (Z.of_nat c))
           (seq 0 (Z.to_nat width)).

(* ------------------------------------------------------------------------- *)
(** * Part IV: the register writer follows its description *)

Example run_three :
  option_map log
    (operation always_ok 7 [rw 0 0; rw 128 1; rw 129 2; rw 0 0; rw 130 3] 5 9 5)
  = Some [Submit 1 [128; 1; 129; 2] true; Submit 4 [130; 3] true; Callback 7 0 9].
Proof. vm_compute. reflexivity. Qed.

Example run_three_play :
  option_map log
    (operation always_ok 7 [rw 0 0; rw 128 1; rw 129 2; rw 0 0; rw 130 3] 5 9 5)
  = Some (play always_ok 7 9 0 (batches 0 [rw 0 0; rw 128 1; rw 129 2; rw 0 0; rw 130 3])).
Proof. vm_compute. reflexivity. Qed.

Example run_rejected :
  option_map log
    (operation (fun _ _ => Rejected) 7 [rw 128 1; rw 129 2] 2 9 2)
  = Some [Submit 0 [128; 1; 129; 2] false; Callback 7 (- EIO) 9].
Proof. vm_compute. reflexivity. Qed.

Example assemble_2x2 :
  option_map img (aes_assemble_image [18; 52] 2 2 [0; 0; 0; 0])
  = Some [72; 144; 36; 108].
Proof. vm_compute. reflexivity. Qed.

(** ** Integer conversions inside their ranges *)

Lemma to_uint_small (x : Z) : 0 <= x < 2 ^ 32 -> to_uint x = x.
Proof. intros H. unfold to_uint. apply Z.mod_small. lia. Qed.

Lemma to_int_small (x : Z) : - 2 ^ 31 <= x < 2 ^ 31 -> to_int x = x.
Proof. intros H. unfold to_int. rewrite Z.mod_small; lia. Qed.

(** ** Lists *)

Lemma skipn_cons_nth_error {A} (n : nat) (l : list A) (x : A) (t : list A) :
  skipn n l = x :: t -> nth_error l n = Some x /\ skipn (S n) l = t.
Proof.
  revert l; induction n as [|n IH]; intros [|y l] E; simpl in E; try discriminate.
  - injection E as -> ->. auto.
  - apply IH in E. exact E.
Qed.

Lemma batch_run_length (n : nat) (l : list aes_regwrite) :
  (length (batch_run n l) <= n)%nat /\ (length (batch_run n l) <= length l)%nat.
Proof.
  revert l; induction n as [|n IH]; intros [|r l]; simpl; try lia.
  destruct (is_barrier r); simpl; [lia|]. specialize (IH l). lia.
Qed.

Lemma batch_run_prefix (n : nat) (l : list aes_regwrite) :
  firstn (length (batch_run n l)) l = batch_run n l.
Proof.
  revert l; induction n as [|n IH]; intros [|r l]; simpl; auto.
  destruct (is_barrier r); simpl; [reflexivity|]. f_equal. apply IH.
Qed.

Lemma batch_run_no_barrier (n : nat) (l : list aes_regwrite) :
  Forall (fun r => is_barrier r = false) (batch_run n l).
Proof.
  revert l; induction n as [|n IH]; intros [|r l]; simpl; auto.
  destruct (is_barrier r) eqn:E; auto.
Qed.

(** ** The loops of the register writer *)

Lemma int_max_value : INT_MAX = 2147483647.
Proof. reflexivity. Qed.

Lemma regs_at_skipn (wdata : write_regv_data) (i : Z) (r : aes_regwrite)
    (l : list aes_regwrite) :
  0 <= i -> skipn (Z.to_nat i) (regs wdata) = r :: l ->
  regs_at wdata i = Some r /\ skipn (Z.to_nat (i + 1)) (regs wdata) = l.
Proof.
  intros Hi E. apply skipn_cons_nth_error in E. destruct E as [E1 E2].
  unfold regs_at. replace (i <? 0) with false by (symmetry; apply Z.ltb_ge; lia).
  replace (Z.to_nat (i + 1)) with (S (Z.to_nat i)) by lia. auto.
Qed.

Lemma skipn_length_eq (wdata : write_regv_data) (i : Z) (l : list aes_regwrite) :
  session_ok wdata -> 0 <= i <= num_regs wdata ->
  skipn (Z.to_nat i) (regs wdata) = l ->
  i + Z.of_nat (length l) = num_regs wdata.
Proof.
  intros [Hn _] Hi <-. rewrite length_skipn. lia.
Qed.

Lemma skip_zeros_spec (wdata : write_regv_data) :
  session_ok wdata ->
  forall (l : list aes_regwrite) (offset : Z) (fuel : nat),
    0 <= offset <= num_regs wdata ->
    skipn (Z.to_nat offset) (regs wdata) = l ->
    (length l < fuel)%nat ->
    skip_zeros fuel wdata offset
    = Some match batches offset l with
           | [] => AllWritten
           | (pos, _) :: _ => NextWrite pos
           end.
Proof.
  intros Hok. pose proof int_max_value as IM. induction l as [|r l IH];
    intros offset fuel Ho El Hf; (destruct fuel as [|fuel]; [simpl in Hf; lia|]);
    pose proof (skipn_length_eq wdata offset _ Hok Ho El) as Hlen;
    cbn [skip_zeros]; simp batches.
  - simpl in Hlen. rewrite Z.geb_leb.
    replace (num_regs wdata <=? offset) with true by (symmetry; apply Z.leb_le; lia).
    reflexivity.
  - simpl length in Hlen. rewrite Z.geb_leb.
    replace (num_regs wdata <=? offset) with false by (symmetry; apply Z.leb_gt; lia).
    destruct (regs_at_skipn wdata offset r l ltac:(lia) El) as [E1 E2].
    rewrite E1. cbn [bind]. unfold is_barrier. destruct (reg r =? 0).
    + destruct Hok as [Hn Hm]. rewrite to_uint_small by lia.
      apply IH; auto; [lia | simpl in Hf; lia].
    + reflexivity.
Qed.

Lemma find_zero_spec (wdata : write_regv_data) :
  session_ok wdata ->
  forall (n : nat) (l : list aes_regwrite) (i upper_bound : Z) (fuel : nat),
    0 < i <= num_regs wdata ->
    skipn (Z.to_nat i) (regs wdata) = l ->
    Z.of_nat n = upper_bound + 1 - i ->
    i + Z.of_nat (length (batch_run n l)) <= INT_MAX ->
    (n <= length l)%nat -> (n < fuel)%nat ->
    find_zero fuel wdata i upper_bound
    = Some (i + Z.of_nat (length (batch_run n l)) - 1).
Proof.
  intros Hok. pose proof int_max_value as IM. destruct Hok as [Hn Hm].
  induction n as [|n IH]; intros l i upper_bound fuel Hi El Hu Hub Hl Hf;
    (destruct fuel as [|fuel]; [lia|]);
    pose proof (skipn_length_eq wdata i _ (conj Hn Hm) ltac:(lia) El) as Hlen;
    cbn [find_zero]; rewrite to_uint_small by lia.
  - replace (i <=? upper_bound) with false by (symmetry; apply Z.leb_gt; lia).
    simpl. f_equal. lia.
  - replace (i <=? upper_bound) with true by (symmetry; apply Z.leb_le; lia).
    destruct l as [|r l]; [simpl in Hl; lia|].
    destruct (regs_at_skipn wdata i r l ltac:(lia) El) as [E1 E2].
    rewrite E1. cbn [bind batch_run] in Hub |- *. unfold is_barrier in Hub |- *.
    cbn [length] in Hl, Hlen.
    destruct (reg r =? 0).
    + rewrite to_uint_small by lia. simpl. f_equal. lia.
    + cbn [length] in Hub |- *.
      replace (i <? INT_MAX) with true by (symmetry; apply Z.ltb_lt; lia).
      rewrite (IH l (i + 1) upper_bound fuel); auto; try lia.
      f_equal. lia.
Qed.

Lemma encode_app (a b : list aes_regwrite) : encode (a ++ b) = encode a ++ encode b.
Proof. unfold encode. apply flat_map_app. Qed.

Lemma encode_length (b : list aes_regwrite) :
  Z.of_nat (length (encode b)) = 2 * Z.of_nat (length b).
Proof.
  induction b as [|r b IH]; [reflexivity|].
  unfold encode in *. cbn [flat_map app length]. lia.
Qed.

Lemma pack_regs_spec (wdata : write_regv_data) :
  session_ok wdata ->
  forall (n : nat) (l : list aes_regwrite) (i bound alloc_size : Z) (data : list Z)
         (fuel : nat),
    0 <= i <= num_regs wdata ->
    skipn (Z.to_nat i) (regs wdata) = l ->
    Z.of_nat n = bound - i ->
    (n <= length l)%nat -> (n < fuel)%nat ->
    Z.of_nat (length data) + 2 * Z.of_nat n <= alloc_size ->
    pack_regs fuel wdata i bound alloc_size data = Some (data ++ encode (firstn n l)).
Proof.
  intros Hok. pose proof int_max_value as IM. destruct Hok as [Hn Hm].
  induction n as [|n IH]; intros l i bound alloc_size data fuel Hi El Hb Hl Hf Ha;
    (destruct fuel as [|fuel]; [lia|]);
    pose proof (skipn_length_eq wdata i _ (conj Hn Hm) ltac:(lia) El) as Hlen;
    cbn [pack_regs].
  - replace (i <? bound) with false by (symmetry; apply Z.ltb_ge; lia).
    simpl. rewrite app_nil_r. reflexivity.
  - replace (i <? bound) with true by (symmetry; apply Z.ltb_lt; lia).
    destruct l as [|r l]; [simpl in Hl; lia|].
    destruct (regs_at_skipn wdata i r l ltac:(lia) El) as [E1 E2].
    rewrite E1. cbn [bind]. simpl length in *.
    replace (Z.of_nat (length data) + 2 <=? alloc_size) with true
      by (symmetry; apply Z.leb_le; lia).
    rewrite to_uint_small by lia.
    rewrite (IH l (i + 1) bound alloc_size _ fuel); auto; try lia.
    + rewrite <- app_assoc. reflexivity.
    + rewrite length_app. simpl length. lia.
Qed.

Lemma batch_run_saturate (n : nat) (l : list aes_regwrite) :
  (length l <= n)%nat -> batch_run n l = batch_run (length l) l.
Proof.
  revert l; induction n as [|n IH]; intros [|r l] H; simpl in *; auto; try lia.
  destruct (is_barrier r); auto. f_equal. apply IH. lia.
Qed.

Lemma batches_head (l : list aes_regwrite) :
  forall (offset pos : Z) (b : list aes_regwrite) (bs : list (Z * list aes_regwrite)),
    batches offset l = (pos, b) :: bs ->
    exists r l',
      skipn (Z.to_nat (pos - offset)) l = r :: l' /\
      is_barrier r = false /\
      offset <= pos /\
      b = r :: batch_run 15 l' /\
      bs = batches (pos + Z.of_nat (length b)) (skipn (length (batch_run 15 l')) l').
Proof.
  induction l as [|r l IH]; intros offset pos b bs E; simp batches in E;
    [discriminate|].
  destruct (is_barrier r) eqn:Er.
  - destruct (IH _ _ _ _ E) as (r' & l' & E1 & E2 & E3 & E4 & E5).
    exists r', l'. repeat split; auto; try lia.
    replace (Z.to_nat (pos - offset)) with (S (Z.to_nat (pos - (offset + 1)))) by lia.
    exact E1.
  - injection E as <- <- <-. exists r, l.
    rewrite Z.sub_diag. repeat split; auto; try lia.
    f_equal. simpl length. lia.
Qed.

Lemma batches_length (pos : Z) (l : list aes_regwrite) :
  (length (batches pos l) <= length l)%nat.
Proof.
  funelim (batches pos l); simp batches; [simpl; lia|].
  destruct (is_barrier r); cbn [length].
  - lia.
  - rewrite length_skipn in H0. lia.
Qed.

Lemma remaining_next (regs0 : list aes_regwrite) (off pos : Z)
    (b : list aes_regwrite) (bs : list (Z * list aes_regwrite)) :
  0 <= off ->
  batches off (skipn (Z.to_nat off) regs0) = (pos, b) :: bs ->
  off <= pos /\ (1 <= length b <= 16)%nat /\
  pos + Z.of_nat (length b) <= Z.of_nat (length regs0) /\
  bs = batches (pos + Z.of_nat (length b))
               (skipn (Z.to_nat (pos + Z.of_nat (length b))) regs0).
Proof.
  intros Hoff E.
  destruct (batches_head _ _ _ _ _ E) as (r & l' & E1 & E2 & E3 & E4 & E5).
  rewrite skipn_skipn in E1.
  replace (Z.to_nat (pos - off) + Z.to_nat off)%nat with (Z.to_nat pos) in E1 by lia.
  pose proof (batch_run_length 15 l') as [Hr1 Hr2].
  assert (Hl : (length (skipn (Z.to_nat pos) regs0) = S (length l'))%nat)
    by (rewrite E1; reflexivity).
  rewrite length_skipn in Hl.
  assert (Hb : length b = S (length (batch_run 15 l'))) by (subst b; reflexivity).
  repeat split; try lia.
  rewrite E5. f_equal.
  apply skipn_cons_nth_error in E1. destruct E1 as [_ <-].
  rewrite skipn_skipn. f_equal. lia.
Qed.

Lemma writes_int_indexed_short (regs0 : list aes_regwrite) :
  Z.of_nat (length regs0) <= INT_MAX -> writes_int_indexed regs0.
Proof.
  intros Hmax i r E _.
  assert (i < length regs0)%nat by (apply nth_error_Some; rewrite E; discriminate).
  lia.
Qed.


(** The batch the cursor stands before ends below index [INT_MAX] when the
    writes do. *)
Lemma remaining_low (regs0 : list aes_regwrite) (off pos : Z)
    (b : list aes_regwrite) (bs : list (Z * list aes_regwrite)) :
  writes_int_indexed regs0 -> 0 <= off ->
  batches off (skipn (Z.to_nat off) regs0) = (pos, b) :: bs ->
  pos + Z.of_nat (length b) <= INT_MAX.
Proof.
  intros Hlow Hoff E.
  destruct (remaining_next _ _ _ _ _ Hoff E) as (Hp & Hb & Hle & _).
  destruct (batches_head _ _ _ _ _ E) as (r & l' & E1 & E2 & _ & E4 & _).
  rewrite skipn_skipn in E1.
  replace (Z.to_nat (pos - off) + Z.to_nat off)%nat with (Z.to_nat pos) in E1 by lia.
  assert (Hfirst : b = firstn (length b) (skipn (Z.to_nat pos) regs0)).
  { rewrite E1. subst b. cbn [firstn length]. f_equal. symmetry.
    apply batch_run_prefix. }
  assert (Hw : Forall (fun x => is_barrier x = false) b).
  { subst b. constructor; [exact E2 | apply batch_run_no_barrier]. }
  remember (length b) as k eqn:Ek.
  destruct (nth_error b (k - 1)) as [x|] eqn:Ex.
  2:{ apply nth_error_None in Ex. lia. }
  pose proof (nth_error_In _ _ Ex) as Hin.
  rewrite Forall_forall in Hw. specialize (Hw x Hin).
  rewrite Hfirst, nth_error_firstn in Ex.
  replace (k - 1 <? k)%nat with true in Ex by (symmetry; apply Nat.ltb_lt; lia).
  rewrite nth_error_skipn in Ex.
  assert (Hx : reg x <> 0) by (unfold is_barrier in Hw; apply Z.eqb_neq; exact Hw).
  pose proof (Hlow _ _ Ex Hx). lia.
Qed.

Section Refinement.

Variable transport : nat -> list Z -> transport_reply.

Lemma do_write_regv_spec (w : world) (n : nat) (upper_bound : Z) :
  session_ok (session w) ->
  let pos := offset (session w) in
  0 <= pos -> (1 <= n <= 16)%nat -> pos + Z.of_nat n <= num_regs (session w) ->
  upper_bound = pos + Z.of_nat n - 1 ->
  do_write_regv transport w upper_bound
  = Some (submitted transport w pos
            (firstn n (skipn (Z.to_nat pos) (regs (session w))))).
Proof.
  intros Hok pos Hpos Hn Hle ->. pose proof int_max_value as IM.
  pose proof Hok as [Hnum Hmax].
  unfold do_write_regv. fold pos.
  replace (pos + Z.of_nat n - 1 - pos + 1) with (Z.of_nat n) by lia.
  rewrite (to_uint_small (Z.of_nat n)) by lia.
  rewrite (to_uint_small (Z.of_nat n * 2)) by lia.
  rewrite (to_uint_small (pos + Z.of_nat n)) by lia.
  unfold to_size_t. rewrite (Z.mod_small (Z.of_nat n * 2)) by lia.
  pose proof (skipn_length_eq (session w) pos _ Hok ltac:(lia) eq_refl) as Hlen.
  rewrite (pack_regs_spec (session w) Hok n (skipn (Z.to_nat pos) (regs (session w)))
             pos (pos + Z.of_nat n) (Z.of_nat n * 2) [] (S (Z.to_nat (Z.of_nat n)))
             ltac:(lia) eq_refl ltac:(lia) ltac:(lia) ltac:(lia) ltac:(simpl length; lia)).
  cbn [bind app]. set (b := firstn n (skipn (Z.to_nat pos) (regs (session w)))).
  assert (Hb : length b = n) by (unfold b; rewrite length_firstn; lia).
  rewrite to_int_small by lia.
  unfold libusb_async_bulk_transfer, submitted. cbn [msg_data].
  replace (Z.of_nat n * 2) with (2 * Z.of_nat (length b)) by lia.
  destruct (transport (submissions w) (encode b)); reflexivity.
Qed.

(** [continue_write_regv] does what [next_world] says as long as the next
    batch, if there is one, ends below index [INT_MAX]: the scan for a zero
    counts with an [int]. *)
Lemma continue_write_regv_low (w : world) :
  session_ok (session w) ->
  (forall pos b bs,
     remaining w = (pos, b) :: bs -> pos + Z.of_nat (length b) <= INT_MAX) ->
  0 <= offset (session w) <= num_regs (session w) ->
  continue_write_regv transport w = Some (next_world transport w).
Proof.
  intros Hok Hlow Hoff. pose proof int_max_value as IM. pose proof Hok as [Hnum Hmax].
  unfold continue_write_regv, next_world.
  set (wdata := session w) in *. set (off := offset wdata) in *.
  pose proof (skipn_length_eq wdata off _ Hok Hoff eq_refl) as Hlen.
  rewrite (skip_zeros_spec wdata Hok _ off _ Hoff eq_refl) by lia.
  cbn [bind].
  destruct (batches off (skipn (Z.to_nat off) (regs wdata))) as [|[pos b] bs] eqn:Eb;
    [reflexivity|].
  pose proof (Hlow pos b bs Eb) as Hwin.
  destruct (batches_head _ _ _ _ _ Eb) as (r & l' & E1 & E2 & E3 & E4 & _).
  rewrite skipn_skipn in E1.
  replace (Z.to_nat (pos - off) + Z.to_nat off)%nat with (Z.to_nat pos) in E1 by lia.
  assert (Hlen' : pos + Z.of_nat (length (r :: l')) = num_regs wdata).
  { rewrite <- E1, length_skipn.
    assert (length (skipn (Z.to_nat pos) (regs wdata)) <> 0)%nat
      by (rewrite E1; discriminate).
    rewrite length_skipn in H. lia. }
  cbn [length] in Hlen'.
  set (limit := Z.min (to_uint (num_regs wdata - pos)) MAX_REGWRITES_PER_REQUEST).
  assert (Hlimit : limit = Z.min (Z.of_nat (length l') + 1) 16).
  { unfold limit. rewrite to_uint_small by lia. f_equal. lia. }
  pose proof (batch_run_length 15 l') as [Hr1 Hr2].
  assert (Hrun : batch_run (Z.to_nat (limit - 1)) l' = batch_run 15 l').
  { destruct (Z.le_ge_cases 15 (Z.of_nat (length l'))).
    - f_equal. lia.
    - rewrite (batch_run_saturate 15 l') by lia. f_equal. lia. }
  assert (Hb : Z.of_nat (length b) = 1 + Z.of_nat (length (batch_run 15 l')))
    by (subst b; cbn [length]; lia).
  (* the scan for a zero: the first entry is not a barrier *)
  assert (Hfind : find_zero (S (Z.to_nat limit)) wdata (to_int pos)
                            (to_uint (pos + limit - 1))
                  = Some (pos + Z.of_nat (length b) - 1)).
  { rewrite to_int_small, to_uint_small by lia. cbn [find_zero].
    rewrite to_uint_small by lia.
    replace (pos <=? pos + limit - 1) with true by (symmetry; apply Z.leb_le; lia).
    destruct (regs_at_skipn wdata pos r l' ltac:(lia) E1) as [R1 R2].
    rewrite R1. cbn [bind]. unfold is_barrier in E2. rewrite E2.
    replace (pos <? INT_MAX) with true by (symmetry; apply Z.ltb_lt; lia).
    rewrite (find_zero_spec wdata Hok (Z.to_nat (limit - 1)) l' (pos + 1)
               (pos + limit - 1) (Z.to_nat limit)
               ltac:(lia) R2 ltac:(lia) ltac:(rewrite Hrun; lia) ltac:(lia)
               ltac:(lia)).
    f_equal. rewrite Hrun. lia. }
  cbn [session with_session]. fold wdata. fold limit. rewrite Hfind. cbn [bind].
  set (w1 := with_session (set_offset pos) w).
  assert (Hlb : (1 <= length b <= 16)%nat) by lia.
  assert (Hle : pos + Z.of_nat (length b) <= num_regs wdata) by lia.
  assert (Hfirst : firstn (length b) (skipn (Z.to_nat pos) (regs wdata)) = b).
  { rewrite E1. subst b. cbn [firstn length]. f_equal. apply batch_run_prefix. }
  rewrite to_int_small by lia.
  rewrite (do_write_regv_spec w1 (length b)); auto;
    try (unfold w1; cbn [session with_session set_offset offset num_regs]; fold wdata; lia).
  replace (offset (session w1)) with pos by reflexivity.
  replace (regs (session w1)) with (regs wdata) by reflexivity.
  rewrite Hfirst. cbn [bind].
  destruct (submitted transport w1 pos b) as [rv w2] eqn:Es.
  destruct (rv <? 0); [reflexivity|].
  rewrite to_uint_small by lia.
  replace (pos + Z.of_nat (length b) - 1 + 1) with (pos + Z.of_nat (length b)) by lia.
  reflexivity.
Qed.

Lemma continue_write_regv_spec (w : world) :
  session_ok (session w) ->
  num_regs (session w) <= INT_MAX ->
  0 <= offset (session w) <= num_regs (session w) ->
  continue_write_regv transport w = Some (next_world transport w).
Proof.
  intros Hok Hmax Hoff. apply continue_write_regv_low; auto.
  intros pos b bs E. destruct Hok as [Hnum _].
  destruct (remaining_next _ _ _ _ _ (proj1 Hoff) E) as (_ & _ & Hle & _). lia.
Qed.

End Refinement.

Section Run.

Variable transport : nat -> list Z -> transport_reply.

Lemma play_cons (dev ud : Z) (k : nat) (pos : Z) (b : list aes_regwrite)
    (bs : list (Z * list aes_regwrite)) :
  play transport dev ud k ((pos, b) :: bs)
  = match transport k (encode b) with
    | Rejected => [Submit pos (encode b) false; Callback dev (- EIO) ud]
    | Completes status actual_length =>
        Submit pos (encode b) true
        :: (if negb (status_completed status) then [Callback dev (- EIO) ud]
            else if negb (2 * Z.of_nat (length b) =? actual_length)
                 then [Callback dev (- EPROTO) ud]
                 else play transport dev ud (S k) bs)
    end.
Proof. reflexivity. Qed.

(** One call of [continue_write_regv] with no transfer in flight: the log
    and the future of the new world are the old log and [play] of the
    batches left. *)
Lemma next_world_future (w : world) :
  session_ok (session w) ->
  0 <= offset (session w) <= num_regs (session w) ->
  inflight w = None ->
  let w1 := next_world transport w in
  imgdev (session w1) = imgdev (session w) /\
  regs (session w1) = regs (session w) /\
  num_regs (session w1) = num_regs (session w) /\
  user_data (session w1) = user_data (session w) /\
  0 <= offset (session w1) <= num_regs (session w1) /\
  log w1 ++ future transport w1
  = log w ++ play transport (imgdev (session w)) (user_data (session w))
                  (submissions w) (remaining w) /\
  (inflight w1 = None \/ S (length (remaining w1)) = length (remaining w)).
Proof.
  intros [Hnum Hmax] Hoff Hidle. unfold next_world, remaining.
  destruct (batches (offset (session w)) _) as [|[pos b] bs] eqn:Eb.
  - cbn. unfold future. cbn [callback inflight]. rewrite Hidle, app_nil_r.
    repeat split; auto; lia.
  - destruct (remaining_next _ _ _ _ _ (proj1 Hoff) Eb) as (Hp & Hb & Hle & Hbs).
    rewrite play_cons. unfold submitted. cbn [with_session submissions session].
    destruct (transport (submissions w) (encode b)) as [|st al].
    + cbn. unfold future. cbn [callback inflight]. rewrite Hidle, app_nil_r.
      rewrite <- !app_assoc. repeat split; auto; lia.
    + change (0 <? 0) with false. cbv iota.
      unfold future, remaining, with_session, set_offset.
      cbn [inflight urb_status urb_msg msg_length urb_actual_length session
           imgdev regs num_regs user_data offset submissions log].
      rewrite <- Hbs. rewrite <- app_assoc. cbn [app length].
      repeat split; auto; try lia.
Qed.

(** One round of event handling, for a sequence whose writes lie below
    index [INT_MAX] (barriers may follow up to any index an [unsigned int]
    reaches). *)
Lemma handle_events_progress_wide (dev : Z) (regs0 : list aes_regwrite) (ud : Z)
    (n : nat) (w : world) :
  Z.of_nat (length regs0) < 2 ^ 32 ->
  writes_int_indexed regs0 ->
  progress transport dev regs0 ud n w ->
  exists w', handle_events transport w = Some w' /\
             progress transport dev regs0 ud (S n) w'.
Proof.
  intros Hfit Hlow (Hdev & Hregs & Hnum & Hud & Hoff & Hlog & Hleft).
  unfold handle_events. destruct (inflight w) as [u|] eqn:Hu.
  2:{ exists w. split; [reflexivity|]. unfold progress. rewrite Hu. tauto. }
  destruct Hleft as [Hleft|Hleft]; [discriminate|].
  set (w0 := {| session := session w; inflight := None; log := log w;
                submissions := submissions w |}).
  unfold future in Hlog. rewrite Hu in Hlog. cbv zeta in Hlog.
  unfold write_regv_trf_complete.
  destruct (negb (status_completed (urb_status u))).
  { eexists. split; [reflexivity|]. unfold progress, future. cbn.
    rewrite app_nil_r, Hdev, Hud in *.
    repeat split; first [exact Hlog | lia | auto]. }
  destruct (negb (msg_length (urb_msg u) =? urb_actual_length u)).
  { eexists. split; [reflexivity|]. unfold progress, future. cbn.
    rewrite app_nil_r, Hdev, Hud in *.
    repeat split; first [exact Hlog | lia | auto]. }
  assert (Hok : session_ok (session w0)) by (split; cbn; rewrite ?Hregs; lia).
  assert (Hwin : forall pos b bs, remaining w0 = (pos, b) :: bs ->
                                  pos + Z.of_nat (length b) <= INT_MAX).
  { intros pos b bs E. change (remaining w0) with (remaining w) in E.
    unfold remaining in E. rewrite Hregs in E.
    apply (remaining_low regs0 _ pos b bs Hlow (proj1 Hoff) E). }
  rewrite (continue_write_regv_low transport w0 Hok Hwin Hoff).
  eexists. split; [reflexivity|].
  destruct (next_world_future w0 Hok Hoff eq_refl)
    as (N1 & N2 & N3 & N4 & N5 & N6 & N7).
  change (session w0) with (session w) in *.
  change (remaining w0) with (remaining w) in *.
  change (submissions w0) with (submissions w) in *.
  change (log w0) with (log w) in *.
  unfold progress. rewrite N1, N2, N3, N4, N6 in *.
  repeat (split; [first [assumption | lia] |]).
  destruct N7 as [N7|N7]; [left; exact N7 | right; lia].
Qed.

Lemma handle_events_n_progress_wide (dev : Z) (regs0 : list aes_regwrite) (ud : Z) :
  Z.of_nat (length regs0) < 2 ^ 32 ->
  writes_int_indexed regs0 ->
  forall (n k : nat) (w : world),
    progress transport dev regs0 ud k w ->
    exists w', handle_events_n transport n w = Some w' /\
               progress transport dev regs0 ud (k + n) w'.
Proof.
  intros Hfit Hlow. induction n as [|n IH]; intros k w Hw; cbn [handle_events_n].
  - exists w. rewrite Nat.add_0_r. auto.
  - destruct (handle_events_progress_wide dev regs0 ud k w Hfit Hlow Hw)
      as (w1 & E1 & Hw1).
    rewrite E1. cbn [bind].
    replace (k + S n)%nat with (S k + n)%nat by lia. apply IH. exact Hw1.
Qed.

Lemma aes_write_regv_progress_wide (dev : Z) (regs0 : list aes_regwrite) (ud : Z) :
  Z.of_nat (length regs0) < 2 ^ 32 ->
  writes_int_indexed regs0 ->
  exists w, aes_write_regv transport dev regs0 (Z.of_nat (length regs0)) ud = Some w /\
            progress transport dev regs0 ud 0 w.
Proof.
  intros Hfit Hlow. unfold aes_write_regv.
  set (w0 := {| session := _; inflight := None; log := []; submissions := 0 |}).
  assert (Hok : session_ok (session w0)) by (split; cbn; lia).
  assert (Hoff : 0 <= offset (session w0) <= num_regs (session w0)) by (cbn; lia).
  assert (Hwin : forall pos b bs, remaining w0 = (pos, b) :: bs ->
                                  pos + Z.of_nat (length b) <= INT_MAX).
  { intros pos b bs E. apply (remaining_low regs0 0 pos b bs Hlow ltac:(lia) E). }
  rewrite (continue_write_regv_low transport w0 Hok Hwin Hoff).
  eexists. split; [reflexivity|].
  destruct (next_world_future w0 Hok Hoff eq_refl)
    as (N1 & N2 & N3 & N4 & N5 & N6 & N7).
  change (remaining w0) with (batches 0 regs0) in *.
  unfold progress. rewrite N1, N2, N3, N4, N6 in *. cbn in N5 |- *.
  repeat (split; [first [reflexivity | lia] |]).
  destruct N7 as [N7|N7]; [left; exact N7 | right; lia].
Qed.

(** The operation never leaves defined behaviour, and after any number of
    rounds of event handling its world is in [progress]. *)
Lemma operation_progress_wide (dev : Z) (regs0 : list aes_regwrite) (ud : Z) (n : nat) :
  Z.of_nat (length regs0) < 2 ^ 32 ->
  writes_int_indexed regs0 ->
  exists w, operation transport dev regs0 (Z.of_nat (length regs0)) ud n = Some w /\
            progress transport dev regs0 ud n w.
Proof.
  intros Hfit Hlow. unfold operation.
  destruct (aes_write_regv_progress_wide dev regs0 ud Hfit Hlow) as (w0 & E0 & Hw0).
  rewrite E0. cbn [bind].
  apply (handle_events_n_progress_wide dev regs0 ud Hfit Hlow n 0 w0 Hw0).
Qed.

(** After as many rounds as there are batches, the operation is over and its
    log is [play] of the batches. *)
Lemma operation_complete_wide (dev : Z) (regs0 : list aes_regwrite) (ud : Z) (n : nat) :
  Z.of_nat (length regs0) < 2 ^ 32 ->
  writes_int_indexed regs0 ->
  (length (batches 0 regs0) <= n)%nat ->
  exists w, operation transport dev regs0 (Z.of_nat (length regs0)) ud n = Some w /\
            inflight w = None /\
            log w = play transport dev ud 0 (batches 0 regs0).
Proof.
  intros Hfit Hlow Hn.
  destruct (operation_progress_wide dev regs0 ud n Hfit Hlow) as (w & E & Hw).
  exists w. split; [exact E|].
  destruct Hw as (_ & _ & _ & _ & _ & Hlog & Hleft).
  destruct Hleft as [Hidle|Hleft]; [|lia].
  split; [exact Hidle|]. unfold future in Hlog. rewrite Hidle, app_nil_r in Hlog.
  exact Hlog.
Qed.

(** The same for a sequence of at most [INT_MAX] entries. *)
Lemma handle_events_progress (dev : Z) (regs0 : list aes_regwrite) (ud : Z)
    (n : nat) (w : world) :
  Z.of_nat (length regs0) <= INT_MAX ->
  progress transport dev regs0 ud n w ->
  exists w', handle_events transport w = Some w' /\
             progress transport dev regs0 ud (S n) w'.
Proof.
  intros Hmax. pose proof int_max_value as IM.
  apply handle_events_progress_wide; [lia | apply writes_int_indexed_short; exact Hmax].
Qed.

Lemma handle_events_n_progress (dev : Z) (regs0 : list aes_regwrite) (ud : Z) :
  Z.of_nat (length regs0) <= INT_MAX ->
  forall (n k : nat) (w : world),
    progress transport dev regs0 ud k w ->
    exists w', handle_events_n transport n w = Some w' /\
               progress transport dev regs0 ud (k + n) w'.
Proof.
  intros Hmax. pose proof int_max_value as IM.
  apply handle_events_n_progress_wide;
    [lia | apply writes_int_indexed_short; exact Hmax].
Qed.

Lemma aes_write_regv_progress (dev : Z) (regs0 : list aes_regwrite) (ud : Z) :
  Z.of_nat (length regs0) <= INT_MAX ->
  exists w, aes_write_regv transport dev regs0 (Z.of_nat (length regs0)) ud = Some w /\
            progress transport dev regs0 ud 0 w.
Proof.
  intros Hmax. pose proof int_max_value as IM.
  apply aes_write_regv_progress_wide;
    [lia | apply writes_int_indexed_short; exact Hmax].
Qed.

Lemma operation_progress (dev : Z) (regs0 : list aes_regwrite) (ud : Z) (n : nat) :
  Z.of_nat (length regs0) <= INT_MAX ->
  exists w, operation transport dev regs0 (Z.of_nat (length regs0)) ud n = Some w /\
            progress transport dev regs0 ud n w.
Proof.
  intros Hmax. pose proof int_max_value as IM.
  apply operation_progress_wide; [lia | apply writes_int_indexed_short; exact Hmax].
Qed.

Lemma operation_complete (dev : Z) (regs0 : list aes_regwrite) (ud : Z) (n : nat) :
  Z.of_nat (length regs0) <= INT_MAX -> (length regs0 <= n)%nat ->
  exists w, operation transport dev regs0 (Z.of_nat (length regs0)) ud n = Some w /\
            inflight w = None /\
            log w = play transport dev ud 0 (batches 0 regs0).
Proof.
  intros Hmax Hn. pose proof int_max_value as IM.
  pose proof (batches_length 0 regs0).
  apply operation_complete_wide;
    [lia | apply writes_int_indexed_short; exact Hmax | lia].
Qed.

End Run.

(** ** The batches of a sequence *)

Lemma batch_run_filter (n : nat) (l : list aes_regwrite) :
  filter is_write (batch_run n l) = batch_run n l.
Proof.
  revert l; induction n as [|n IH]; intros [|r l]; cbn [batch_run]; auto.
  destruct (is_barrier r) eqn:E; auto.
  cbn [filter]. unfold is_write at 1. rewrite E. cbn [negb]. f_equal. apply IH.
Qed.


Lemma batches_ok (pos : Z) (l : list aes_regwrite) :
  Forall (batch_ok pos l) (batches pos l).
Proof.
  funelim (batches pos l); simp batches; [constructor|].
  destruct (is_barrier r) eqn:E.
  - eapply Forall_impl; [|exact H]. intros [p b] (B1 & B2 & B3 & B4 & B5).
    unfold batch_ok. cbn [length]. repeat split; auto; try lia.
    replace (Z.to_nat (p - pos)) with (S (Z.to_nat (p - (pos + 1)))) by lia.
    exact B4.
  - pose proof (batch_run_length 15 l') as [R1 R2]. constructor.
    + unfold batch_ok. cbn [length]. repeat split; try lia.
      * rewrite Z.sub_diag. cbn [Z.to_nat skipn firstn]. f_equal.
        symmetry. apply batch_run_prefix.
      * constructor; [exact E | apply batch_run_no_barrier].
    + eapply Forall_impl; [|exact H0]. intros [p b] (B1 & B2 & B3 & B4 & B5).
      rewrite length_skipn in B3. unfold batch_ok. cbn [length].
      repeat split; auto; try lia.
      rewrite skipn_skipn in B4.
      replace (Z.to_nat (p - pos)) with
        (S (Z.to_nat (p - (pos + 1 + Z.of_nat (length (batch_run 15 l'))))
            + length (batch_run 15 l')))%nat by lia.
      exact B4.
Qed.










(** The writes of the batches do not depend on where the sequence starts. *)
Lemma batches_shift (n : nat) :
  forall (l : list aes_regwrite) (pos pos' : Z),
    (length l <= n)%nat ->
    map snd (batches pos l) = map snd (batches pos' l).
Proof.
  induction n as [|n IH]; intros [|r l] pos pos' Hn; simp batches; auto;
    cbn [length] in Hn; try lia.
  destruct (is_barrier r); [apply IH; lia|].
  cbn [map snd]. f_equal. apply IH. rewrite length_skipn. lia.
Qed.


Section PlayFacts.

Variable transport : nat -> list Z -> transport_reply.
Variables dev ud : Z.

(** The log of [play]: submissions of a prefix of the batches, served by the
    transport, then one callback. *)
Lemma play_served (bs : list (Z * list aes_regwrite)) :
  forall k : nat,
  exists subs s,
    play transport dev ud k bs = subs ++ [Callback dev s ud] /\
    served transport k subs s /\
    Forall2 (fun e pb => exists acc, e = submit_of acc pb)
            subs (firstn (length subs) bs) /\
    (s = 0 -> length subs = length bs).
Proof.
  induction bs as [|[pos b] bs IH]; intros k.
  - exists [], 0. repeat split; constructor.
  - rewrite play_cons. pose proof (encode_length b) as Hlen.
    destruct (transport k (encode b)) as [|st al] eqn:Et.
    + exists [Submit pos (encode b) false], (- EIO). repeat split.
      * constructor. exact Et.
      * cbn. constructor; [exists false; reflexivity | constructor].
      * discriminate.
    + destruct (status_completed st) eqn:Es; cbn [negb].
      2:{ exists [Submit pos (encode b) true], (- EIO). repeat split.
          - apply (served_failed _ _ _ _ st al); [exact Et|].
            intros ->. discriminate.
          - cbn. constructor; [exists true; reflexivity | constructor].
          - discriminate. }
      assert (st = FP_URB_COMPLETED) by (destruct st; auto; discriminate). subst st.
      destruct (2 * Z.of_nat (length b) =? al) eqn:El; cbn [negb].
      2:{ exists [Submit pos (encode b) true], (- EPROTO). repeat split.
          - apply (served_mismatch _ _ _ _ al); [exact Et|].
            apply Z.eqb_neq in El. lia.
          - cbn. constructor; [exists true; reflexivity | constructor].
          - discriminate. }
      apply Z.eqb_eq in El.
      destruct (IH (S k)) as (subs & s & E & Hs & Hf & Hz).
      exists (Submit pos (encode b) true :: subs), s. repeat split.
      * rewrite E. reflexivity.
      * apply served_ok; [|exact Hs]. rewrite Et. f_equal. lia.
      * cbn [length firstn]. constructor; [exists true; reflexivity | exact Hf].
      * intros Z0. cbn [length]. f_equal. apply Hz. exact Z0.
Qed.

End PlayFacts.

Lemma served_always_ok (transport : nat -> list Z -> transport_reply) :
  (forall k data, transport k data = Completes FP_URB_COMPLETED (Z.of_nat (length data))) ->
  forall k subs s, served transport k subs s -> s = 0.
Proof.
  intros Hok k subs s H. induction H as [| k first data E | k first data st al E Hst
                                        | k first data al E Hal | k first data subs s E H IH];
    auto; rewrite Hok in E; try discriminate.
  - injection E as <- <-. contradiction.
  - injection E as <-. contradiction.
Qed.


Lemma payloads_app (a b : list event) : payloads (a ++ b) = payloads a ++ payloads b.
Proof. unfold payloads. apply flat_map_app. Qed.

Lemma statuses_app (a b : list event) : statuses (a ++ b) = statuses a ++ statuses b.
Proof. unfold statuses. apply flat_map_app. Qed.

Lemma submits_payloads (subs : list event) (bs : list (Z * list aes_regwrite)) :
  Forall2 (fun e pb => exists acc, e = submit_of acc pb) subs bs ->
  payloads subs = map (fun pb => encode (snd pb)) bs /\ statuses subs = [].
Proof.
  induction 1 as [|e pb subs bs (acc & ->) _ [IH1 IH2]]; [auto|].
  unfold payloads, statuses, submit_of in *. cbn [flat_map map app].
  rewrite IH1, IH2. auto.
Qed.

Lemma submits_in (subs : list event) (bs : list (Z * list aes_regwrite))
    (first : Z) (data : list Z) (acc : bool) :
  Forall2 (fun e pb => exists acc, e = submit_of acc pb) subs bs ->
  In (Submit first data acc) subs ->
  exists b, In (first, b) bs /\ data = encode b.
Proof.
  induction 1 as [|e pb subs bs (acc' & ->) _ IH]; intros Hin; [contradiction|].
  destruct Hin as [E|Hin].
  - destruct pb as [p b]. injection E as <- <- <-. exists b. split; [left|]; reflexivity.
  - destruct (IH Hin) as (b & Hb & ->). exists b. split; [right|]; auto.
Qed.


Lemma is_barrier_true (r : aes_regwrite) : is_barrier r = true <-> reg r = 0.
Proof. unfold is_barrier. apply Z.eqb_eq. Qed.

Lemma in_firstn {A} (n : nat) (l : list A) (x : A) : In x (firstn n l) -> In x l.
Proof.
  revert l; induction n as [|n IH]; intros [|y l]; cbn [firstn]; try contradiction.
  intros [E|H]; [left; exact E | right; apply IH; exact H].
Qed.


Lemma Forall2_length_eq {A B} (R : A -> B -> Prop) (l : list A) (l' : list B) :
  Forall2 R l l' -> length l = length l'.
Proof. induction 1; cbn [length]; auto. Qed.

Section Operation.

Variable transport : nat -> list Z -> transport_reply.
Variables dev ud : Z.
Variable regs0 : list aes_regwrite.
Hypothesis Hmax : Z.of_nat (length regs0) <= INT_MAX.

(** The outcome of an operation: some submissions, served by the transport,
    and then one callback; that is the log from the round on in which the
    last write is sure to have been dealt with. *)
Lemma operation_served :
  exists subs s,
    served transport 0 subs s /\
    Forall2 (fun e pb => exists acc, e = submit_of acc pb)
            subs (firstn (length subs) (batches 0 regs0)) /\
    (s = 0 -> length subs = length (batches 0 regs0)) /\
    (forall n, exists w rest,
       operation transport dev regs0 (Z.of_nat (length regs0)) ud n = Some w /\
       log w ++ rest = subs ++ [Callback dev s ud]) /\
    forall n, (length regs0 <= n)%nat ->
      exists w, operation transport dev regs0 (Z.of_nat (length regs0)) ud n = Some w /\
                inflight w = None /\
                log w = subs ++ [Callback dev s ud].
Proof.
  destruct (play_served transport dev ud (batches 0 regs0) 0)
    as (subs & s & E & Hs & Hf & Hz).
  exists subs, s. repeat split; auto.
  - intros n.
    destruct (operation_progress transport dev regs0 ud n Hmax)
      as (w & Ew & (_ & _ & _ & _ & _ & Hlog & _)).
    exists w, (future transport w). rewrite Hlog, E. auto.
  - intros n Hn.
    destruct (operation_complete transport dev regs0 ud n Hmax Hn) as (w & Ew & Hi & Hl).
    exists w. rewrite Hl, E. auto.
Qed.


End Operation.

(** ** Writes at or above index [INT_MAX] *)

(** The scan for a zero of [continue_write_regv] counts with an [int]; the
    lemmas below follow the operation on two sequences on which a write
    stands at or above index [INT_MAX]. *)




Section Beyond.

Variable transport : nat -> list Z -> transport_reply.



End Beyond.

(** A sequence of writes only, longer than [INT_MAX]. *)







Section LongWrites.

Variables dev ud : Z.
Variable k : nat.
Variable num : Z.
Hypothesis Hnum : num = Z.of_nat k.
Hypothesis Hlong : INT_MAX < num.
Hypothesis Hfits : num < 2 ^ 32.





End LongWrites.

(* ------------------------------------------------------------------------- *)
(** * Properties of the register writer *)



















(** C8: an operation on the empty sequence invokes the callback once, with
    status 0, and submits nothing, whatever the transport is and however
    many rounds of event handling follow. *)
Theorem write_regv_empty (transport : nat -> list Z -> transport_reply)
    (dev ud : Z) (n : nat) :
  exists w,
    operation transport dev [] 0 ud n = Some w /\
    inflight w = None /\
    submissions w = 0%nat /\
    log w = [Callback dev 0 ud].
Proof.
  assert (Hidle : forall w, inflight w = None ->
                            handle_events_n transport n w = Some w).
  { induction n as [|k IH]; intros w Hw; cbn [handle_events_n]; [reflexivity|].
    unfold handle_events. rewrite Hw. cbn [bind]. apply IH. exact Hw. }
  eexists. split; [|split; [|split]].
  - unfold operation, aes_write_regv, continue_write_regv.
    cbn [session offset num_regs skip_zeros Z.to_nat Z.sub Z.opp Z.add bind].
    change (0 >=? 0) with true. cbv iota. cbn [bind]. apply Hidle. reflexivity.
  - reflexivity.
  - reflexivity.
  - reflexivity.
Qed.





(* ------------------------------------------------------------------------- *)
(** * Part V: the image assembler *)

Lemma index_div (w r c : Z) : 0 <= c < w -> (w * r + c) / w = r.
Proof.
  intros H. symmetry. apply (Z.div_unique _ _ _ c); [left; lia | lia].
Qed.

Lemma index_mod (w r c : Z) : 0 <= c < w -> (w * r + c) mod w = c.
Proof.
  intros H. symmetry. apply (Z.mod_unique _ _ r c); [left; lia | lia].
Qed.

Lemma source_index_even (w h r c : Z) :
  0 <= c < w -> source_index w h (w * (2 * r) + c) = c * (h / 2) + r.
Proof.
  intros H. unfold source_index. rewrite index_div, index_mod by lia.
  f_equal. rewrite Z.mul_comm. apply Z.div_mul. lia.
Qed.

Lemma source_index_odd (w h r c : Z) :
  0 <= c < w -> source_index w h (w * (2 * r + 1) + c) = c * (h / 2) + r.
Proof.
  intros H. unfold source_index. rewrite index_div, index_mod by lia.
  f_equal. symmetry. apply (Z.div_unique _ _ _ 1); [left; lia | lia].
Qed.

(** The two pixels of raw byte [c * H + j] and no others. *)
Lemma source_index_inv (w H i c j : Z) :
  0 <= c < w -> 0 <= j < H -> 0 <= i < w * (2 * H) ->
  source_index w (2 * H) i = c * H + j ->
  i = w * (2 * j) + c \/ i = w * (2 * j + 1) + c.
Proof.
  intros Hc Hj Hi. unfold source_index.
  replace (2 * H / 2) with H by (symmetry; rewrite Z.mul_comm; apply Z.div_mul; lia).
  pose proof (Z.div_mod i w ltac:(lia)) as E.
  pose proof (Z.mod_pos_bound i w ltac:(lia)) as B.
  set (ci := i mod w) in *. set (ri := i / w) in *.
  assert (0 <= ri < 2 * H) by nia.
  pose proof (Z.div_mod ri 2 ltac:(lia)) as E2.
  pose proof (Z.mod_pos_bound ri 2 ltac:(lia)) as B2.
  set (q := ri / 2) in *. set (p := ri mod 2) in *.
  intros S.
  assert (ci = c) by nia.
  assert (q = j) by nia.
  assert (p = 0 \/ p = 1) as [P|P] by lia; [left|right]; nia.
Qed.

Lemma length_list_set {A} (n : nat) (v : A) (l : list A) :
  length (list_set n v l) = length l.
Proof.
  revert n; induction l as [|x l IH]; intros [|n]; simpl; auto.
Qed.

Lemma nth_list_set_same {A} (n : nat) (v d : A) (l : list A) :
  (n < length l)%nat -> nth n (list_set n v l) d = v.
Proof.
  revert n; induction l as [|x l IH]; intros [|n]; simpl; intros H; try lia; auto.
  apply IH; lia.
Qed.

Lemma nth_list_set_other {A} (n k : nat) (v d : A) (l : list A) :
  k <> n -> nth k (list_set n v l) d = nth k l d.
Proof.
  revert n k; induction l as [|x l IH]; intros [|n] [|k]; simpl; intros; try lia; auto.
Qed.

Lemma land_7_range (b : Z) : 0 <= Z.land b 7 <= 7.
Proof.
  assert (E : Z.land b 7 = b mod 2 ^ 3) by (apply (Z.land_ones b 3); lia).
  rewrite E. pose proof (Z.mod_pos_bound b (2 ^ 3) ltac:(lia)). lia.
Qed.

Lemma shiftr_land_112 (b : Z) : Z.shiftr (Z.land b 112) 4 = Z.land (Z.shiftr b 4) 7.
Proof. rewrite Z.shiftr_land. reflexivity. Qed.

Lemma sample_range (b : Z) : 0 <= Z.shiftr (Z.land b 112) 4 <= 7.
Proof. rewrite shiftr_land_112. apply land_7_range. Qed.

Lemma to_uchar_scaled (x : Z) : 0 <= x <= 7 -> to_uchar (x * 36) = x * 36.
Proof. intros H. unfold to_uchar. apply Z.mod_small. lia. Qed.

Lemma to_size_t_small (x : Z) : 0 <= x < 2 ^ 64 -> to_size_t x = x.
Proof. intros H. unfold to_size_t. apply Z.mod_small. lia. Qed.

Lemma store_indices_app (s t : list access) :
  store_indices (s ++ t) = store_indices s ++ store_indices t.
Proof. unfold store_indices. apply flat_map_app. Qed.

Lemma load_indices_app (s t : list access) :
  load_indices (s ++ t) = load_indices s ++ load_indices t.
Proof. unfold load_indices. apply flat_map_app. Qed.

Lemma source_index_bound (width H i : Z) :
  0 <= H -> 0 <= i < width * (2 * H) ->
  0 <= source_index width (2 * H) i < width * H.
Proof.
  intros HH Hi. unfold source_index.
  replace (2 * H / 2) with H by (symmetry; rewrite Z.mul_comm; apply Z.div_mul; lia).
  assert (0 < width) by nia.
  pose proof (Z.div_mod i width ltac:(lia)) as E.
  pose proof (Z.mod_pos_bound i width ltac:(lia)) as B.
  set (ci := i mod width) in *. set (ri := i / width) in *.
  assert (0 <= ri < 2 * H) by nia.
  pose proof (Z.div_mod ri 2 ltac:(lia)) as E2.
  pose proof (Z.mod_pos_bound ri 2 ltac:(lia)) as B2.
  set (q := ri / 2) in *. nia.
Qed.

Section Assemble.

Variables (input : list Z) (width H : Z).
Hypothesis Hwidth : 0 <= width < 2 ^ 64.
Hypothesis HH : 0 <= H.
Hypothesis Hsize : width * (2 * H) < 2 ^ 64.
Hypothesis Hraw : width * H <= Z.of_nat (length input).

Lemma half_height : (2 * H) / 2 = H.
Proof. rewrite Z.mul_comm. apply Z.div_mul. lia. Qed.

(** One pass through the loop body, as two stores on the image. *)
Lemma assemble_pair_run (c j : Z) (m : image_mem) :
  0 <= c < width -> 0 <= j < H ->
  raw m = input -> Z.of_nat (length (img m)) = width * (2 * H) ->
  let p := c * H + j in
  let b := nth (Z.to_nat p) input 0 in
  let i1 := width * (2 * j) + c in
  let i2 := width * (2 * j + 1) + c in
  let v1 := Z.land b 7 * 36 in
  let v2 := Z.shiftr (Z.land b 112) 4 * 36 in
  assemble_pair width c (2 * j) p m
  = Some {| raw := input;
            img := list_set (Z.to_nat i2) v2 (list_set (Z.to_nat i1) v1 (img m));
            accesses := accesses m ++ [Load p; Store i1 v1; Load p; Store i2 v2] |}.
Proof.
  intros Hc Hj Hr Hl p b i1 i2 v1 v2.
  assert (Hp : 0 <= p < Z.of_nat (length input)) by (unfold p; nia).
  assert (Hi1 : 0 <= i1 < width * (2 * H)) by (unfold i1; nia).
  assert (Hi2 : 0 <= i2 < width * (2 * H)) by (unfold i2; nia).
  assert (E1 : to_size_t (to_size_t (width * (2 * j)) + c) = i1).
  { rewrite (to_size_t_small (width * (2 * j))) by nia.
    apply to_size_t_small. fold i1. lia. }
  assert (E2 : to_size_t (to_size_t (width * to_size_t (2 * j + 1)) + c) = i2).
  { rewrite (to_size_t_small (2 * j + 1)) by nia.
    rewrite (to_size_t_small (width * (2 * j + 1))) by nia.
    apply to_size_t_small. fold i2. lia. }
  unfold assemble_pair, load. rewrite Hr.
  replace ((0 <=? p) && (p <? Z.of_nat (length input))) with true
    by (symmetry; apply andb_true_iff; split; [apply Z.leb_le | apply Z.ltb_lt]; lia).
  cbn [bind raw img accesses]. fold b. rewrite E1. unfold store at 1. cbn [raw img accesses].
  replace ((0 <=? i1) && (i1 <? Z.of_nat (length (img m)))) with true
    by (symmetry; apply andb_true_iff; split; [apply Z.leb_le | apply Z.ltb_lt]; lia).
  cbn [bind raw img accesses].
  replace ((0 <=? p) && (p <? Z.of_nat (length input))) with true
    by (symmetry; apply andb_true_iff; split; [apply Z.leb_le | apply Z.ltb_lt]; lia).
  cbn [bind raw img accesses]. fold b. rewrite E2. unfold store. cbn [raw img accesses].
  rewrite length_list_set.
  replace ((0 <=? i2) && (i2 <? Z.of_nat (length (img m)))) with true
    by (symmetry; apply andb_true_iff; split; [apply Z.leb_le | apply Z.ltb_lt]; lia).
  rewrite (to_uchar_scaled (Z.land b 7)) by apply land_7_range.
  rewrite (to_uchar_scaled (Z.shiftr (Z.land b 112) 4)) by apply sample_range.
  fold v1 v2. rewrite <- !app_assoc. reflexivity.
Qed.

Lemma pixel_even (c j : Z) :
  0 <= c < width ->
  pixel input width (2 * H) (width * (2 * j) + c)
  = Z.land (nth (Z.to_nat (c * H + j)) input 0) 7 * 36.
Proof.
  intros Hc. unfold pixel. rewrite source_index_even, half_height by lia.
  rewrite index_div by lia. rewrite Z.even_mul. reflexivity.
Qed.

Lemma pixel_odd (c j : Z) :
  0 <= c < width ->
  pixel input width (2 * H) (width * (2 * j + 1) + c)
  = Z.shiftr (Z.land (nth (Z.to_nat (c * H + j)) input 0) 112) 4 * 36.
Proof.
  intros Hc. unfold pixel. rewrite source_index_odd, half_height by lia.
  rewrite index_div by lia.
  rewrite Z.add_comm, Z.even_add_mul_2. reflexivity.
Qed.

(** The loop body keeps [assembled] and uses up one raw byte. *)
Lemma assemble_pair_spec (c j : Z) (m : image_mem) :
  0 <= c < width -> 0 <= j < H ->
  assembled input width (2 * H) (c * H + j) m ->
  exists m', assemble_pair width c (2 * j) (c * H + j) m = Some m' /\
             assembled input width (2 * H) (c * H + j + 1) m'.
Proof.
  intros Hc Hj (Hr & Hl & Hnd & Hin & Hpx & Hld & Hst).
  rewrite (assemble_pair_run c j m Hc Hj Hr Hl). eexists; split; [reflexivity|].
  set (p := c * H + j) in *.
  set (i1 := width * (2 * j) + c). set (i2 := width * (2 * j + 1) + c).
  assert (Hp : 0 <= p) by (unfold p; nia).
  assert (Hi1 : 0 <= i1 < width * (2 * H)) by (unfold i1; nia).
  assert (Hi2 : 0 <= i2 < width * (2 * H)) by (unfold i2; nia).
  assert (S1 : source_index width (2 * H) i1 = p)
    by (unfold i1; rewrite source_index_even, half_height by lia; reflexivity).
  assert (S2 : source_index width (2 * H) i2 = p)
    by (unfold i2; rewrite source_index_odd, half_height by lia; reflexivity).
  assert (D12 : i1 <> i2) by (unfold i1, i2; nia).
  assert (N1 : ~ In i1 (store_indices (accesses m))) by (intros X; apply Hin in X; lia).
  assert (N2 : ~ In i2 (store_indices (accesses m))) by (intros X; apply Hin in X; lia).
  unfold assembled; cbn [raw img accesses].
  rewrite store_indices_app, load_indices_app. cbn [store_indices load_indices flat_map app].
  repeat split.
  - rewrite !length_list_set. exact Hl.
  - apply NoDup_app; repeat split; auto.
    + constructor; [simpl; intuition congruence | constructor; [simpl; tauto | constructor]].
    + intros a Ha [E|[E|[]]]; subst; contradiction.
  - rewrite in_app_iff in H0. destruct H0 as [X|[X|[X|[]]]]; subst; try lia.
    apply Hin in X; lia.
  - rewrite in_app_iff in H0. destruct H0 as [X|[X|[X|[]]]]; subst; try lia.
    apply Hin in X; lia.
  - rewrite in_app_iff in H0. destruct H0 as [X|[X|[X|[]]]]; subst; try lia.
    apply Hin in X; lia.
  - intros (Hi & Hs). rewrite in_app_iff.
    destruct (Z.eq_dec (source_index width (2 * H) i) p) as [E|E].
    + right.
      destruct (source_index_inv width H i c j Hc Hj Hi E); subst; simpl; auto.
    + left. apply Hin. lia.
  - intros i Hi Hs.
    destruct (Z.eq_dec i i2) as [->|Di2].
    { rewrite nth_list_set_same by (rewrite length_list_set; lia).
      unfold i2. rewrite pixel_odd by lia. reflexivity. }
    rewrite nth_list_set_other by lia.
    destruct (Z.eq_dec i i1) as [->|Di1].
    { rewrite nth_list_set_same by lia.
      unfold i1. rewrite pixel_even by lia. reflexivity. }
    rewrite nth_list_set_other by lia.
    apply Hpx; auto.
    destruct (Z.eq_dec (source_index width (2 * H) i) p) as [E|E]; [|lia].
    destruct (source_index_inv width H i c j Hc Hj Hi E); subst; contradiction.
  - rewrite Hld. replace (Z.to_nat (p + 1)) with (S (Z.to_nat p)) by lia.
    rewrite seq_S, map_app, flat_map_app. simpl. rewrite Z2Nat.id by lia. reflexivity.
  - intros i v. rewrite in_app_iff. intros [X|[X|[X|[X|[X|[]]]]]]; try discriminate.
    + eauto.
    + injection X as <- <-. unfold i1. rewrite pixel_even by lia. reflexivity.
    + injection X as <- <-. unfold i2. rewrite pixel_odd by lia. reflexivity.
Qed.

Lemma assemble_rows_spec (c : Z) (k : nat) :
  0 <= c < width ->
  forall (j : Z) (fuel : nat) (m : image_mem),
    0 <= j -> j + Z.of_nat k = H -> (k < fuel)%nat ->
    assembled input width (2 * H) (c * H + j) m ->
    exists m', assemble_rows fuel width (2 * H) c (2 * j) (c * H + j) m
               = Some (c * H + H, m') /\
               assembled input width (2 * H) (c * H + H) m'.
Proof.
  intros Hc. induction k as [|k IH]; intros j fuel m Hj Hk Hf Hm;
    (destruct fuel as [|fuel]; [lia|]); cbn [assemble_rows].
  - replace (2 * j <? (2 * H)) with false by (symmetry; apply Z.ltb_ge; lia).
    assert (j = H) by lia; subst j. exists m. split; [reflexivity | exact Hm].
  - replace (2 * j <? (2 * H)) with true by (symmetry; apply Z.ltb_lt; lia).
    destruct (assemble_pair_spec c j m Hc ltac:(lia) Hm) as (m1 & E1 & Hm1).
    rewrite E1. cbn [bind].
    rewrite (to_size_t_small (2 * j + 2)) by nia.
    replace (2 * j + 2) with (2 * (j + 1)) by lia.
    replace (c * H + j + 1) with (c * H + (j + 1)) in * by lia.
    apply IH; auto; lia.
Qed.

Lemma assemble_columns_spec (k : nat) :
  forall (c : Z) (fuel : nat) (m : image_mem),
    0 <= c -> c + Z.of_nat k = width -> (k < fuel)%nat ->
    assembled input width (2 * H) (c * H) m ->
    exists m', assemble_columns fuel width (2 * H) c (c * H) m
               = Some (width * H, m') /\
               assembled input width (2 * H) (width * H) m'.
Proof.
  induction k as [|k IH]; intros c fuel m Hc Hk Hf Hm;
    (destruct fuel as [|fuel]; [lia|]); cbn [assemble_columns].
  - replace (c <? width) with false by (symmetry; apply Z.ltb_ge; lia).
    assert (c = width) by lia; subst c. exists m. split; [reflexivity | exact Hm].
  - replace (c <? width) with true by (symmetry; apply Z.ltb_lt; lia).
    assert (Hm0 : assembled input width (2 * H) (c * H + 0) m)
      by (rewrite Z.add_0_r; exact Hm).
    destruct (assemble_rows_spec c (Z.to_nat H) ltac:(lia) 0 (S (Z.to_nat (2 * H))) m
                ltac:(lia) ltac:(lia) ltac:(lia) Hm0)
      as (m1 & E1 & Hm1).
    rewrite Z.add_0_r in E1. change (2 * 0) with 0 in E1. rewrite E1. cbn [bind].
    rewrite (to_size_t_small (c + 1)) by lia.
    replace (c * H + H) with ((c + 1) * H) in * by lia.
    apply IH; auto; lia.
Qed.

Lemma assembled_start (output : list Z) :
  Z.of_nat (length output) = width * (2 * H) ->
  assembled input width (2 * H) 0 {| raw := input; img := output; accesses := [] |}.
Proof.
  intros Hl. unfold assembled; cbn [raw img accesses]. repeat split; auto.
  - constructor.
  - contradiction.
  - contradiction.
  - contradiction.
  - intros (Hi & Hs). pose proof (source_index_bound width H i HH Hi) as B. lia.
  - intros i Hi Hs. pose proof (source_index_bound width H i HH Hi) as B. lia.
  - intros i v [].
Qed.

(** The whole function: it runs to completion and leaves [assembled] with
    every raw byte of the image used. *)
Lemma aes_assemble_image_spec (output : list Z) :
  Z.of_nat (length output) = width * (2 * H) ->
  exists m, aes_assemble_image input width (2 * H) output = Some m /\
            assembled input width (2 * H) (width * H) m.
Proof.
  intros Hl. unfold aes_assemble_image.
  destruct (assemble_columns_spec (Z.to_nat width) 0 (S (Z.to_nat width))
              {| raw := input; img := output; accesses := [] |}
              ltac:(lia) ltac:(lia) ltac:(lia) (assembled_start output Hl))
    as (m & E & Hm).
  change (0 * H) with 0 in E. rewrite E. cbn [bind]. eauto.
Qed.

Lemma stored_at (t : list access) (i : Z) :
  In i (store_indices t) -> exists v, In (Store i v) t.
Proof.
  unfold store_indices. rewrite in_flat_map. intros ([p|k v] & Ha & Hi); simpl in Hi.
  - contradiction.
  - destruct Hi as [<-|[]]. eauto.
Qed.

(** What [assembled] says of the two pixels of one raw byte once the whole
    image is done. *)
Lemma assembled_pair (m : image_mem) (c j : Z) :
  assembled input width (2 * H) (width * H) m ->
  0 <= c < width -> 0 <= j < H ->
  let b := nth (Z.to_nat (c * H + j)) input 0 in
  In (Store (width * (2 * j) + c) (Z.land b 7 * 36)) (accesses m) /\
  In (Store (width * (2 * j + 1) + c) (Z.shiftr (Z.land b 112) 4 * 36)) (accesses m) /\
  nth (Z.to_nat (width * (2 * j) + c)) (img m) 0 = Z.land b 7 * 36 /\
  nth (Z.to_nat (width * (2 * j + 1) + c)) (img m) 0 = Z.shiftr (Z.land b 112) 4 * 36.
Proof.
  intros (Hr & Hl & Hnd & Hin & Hpx & Hld & Hst) Hc Hj b.
  set (i1 := width * (2 * j) + c). set (i2 := width * (2 * j + 1) + c).
  assert (Hi1 : 0 <= i1 < width * (2 * H)) by (unfold i1; nia).
  assert (Hi2 : 0 <= i2 < width * (2 * H)) by (unfold i2; nia).
  pose proof (source_index_bound width H i1 HH Hi1) as B1.
  pose proof (source_index_bound width H i2 HH Hi2) as B2.
  assert (P1 : pixel input width (2 * H) i1 = Z.land b 7 * 36)
    by (unfold i1; apply pixel_even; lia).
  assert (P2 : pixel input width (2 * H) i2 = Z.shiftr (Z.land b 112) 4 * 36)
    by (unfold i2; apply pixel_odd; lia).
  repeat split.
  - destruct (stored_at (accesses m) i1) as (v & Hv); [apply Hin; lia|].
    rewrite <- P1, <- (Hst i1 v Hv). exact Hv.
  - destruct (stored_at (accesses m) i2) as (v & Hv); [apply Hin; lia|].
    rewrite <- P2, <- (Hst i2 v Hv). exact Hv.
  - rewrite <- P1. apply Hpx; lia.
  - rewrite <- P2. apply Hpx; lia.
Qed.

End Assemble.

Lemma even_double (h : Z) : Z.even h = true -> h = 2 * (h / 2).
Proof.
  intros E. pose proof (Zmod_even h) as M. rewrite E in M.
  pose proof (Z.div_mod h 2 ltac:(lia)). lia.
Qed.

Lemma half_area (w h : Z) : Z.even h = true -> w * h / 2 = w * (h / 2).
Proof.
  intros E. rewrite (even_double h E) at 1.
  replace (w * (2 * (h / 2))) with (w * (h / 2) * 2) by lia.
  apply Z.div_mul. lia.
Qed.

(** For an even height and buffers of the sizes the contract asks for, the
    function returns and has used [width * height / 2] raw bytes. *)
Lemma aes_assemble_image_total (input output : list Z) (width height : Z) :
  0 <= width < 2 ^ 64 -> 0 <= height < 2 ^ 64 -> Z.even height = true ->
  width * height < 2 ^ 64 ->
  Z.of_nat (length output) = width * height ->
  width * height / 2 <= Z.of_nat (length input) ->
  exists m, aes_assemble_image input width height output = Some m /\
            assembled input width height (width * height / 2) m.
Proof.
  intros Hw Hh He Hs Hout Hin.
  rewrite half_area in * by assumption.
  pose proof (even_double height He) as E.
  set (H := height / 2) in *. rewrite E in *.
  apply aes_assemble_image_spec; auto; lia.
Qed.


Lemma aes_assemble_image_pairs (input output : list Z) (width height : Z) :
  0 <= width < 2 ^ 64 -> 0 <= height < 2 ^ 64 -> Z.even height = true ->
  width * height < 2 ^ 64 ->
  Z.of_nat (length output) = width * height ->
  width * height / 2 <= Z.of_nat (length input) ->
  exists m,
    aes_assemble_image input width height output = Some m /\
    assembled input width height (width * height / 2) m /\
    forall c row, 0 <= c < width -> 0 <= row < height -> Z.even row = true ->
      let b := nth (Z.to_nat (c * (height / 2) + row / 2)) input 0 in
      In (Store (width * row + c) (Z.land b 7 * 36)) (accesses m) /\
      In (Store (width * (row + 1) + c) (Z.shiftr (Z.land b 112) 4 * 36)) (accesses m) /\
      nth (Z.to_nat (width * row + c)) (img m) 0 = Z.land b 7 * 36 /\
      nth (Z.to_nat (width * (row + 1) + c)) (img m) 0
        = Z.shiftr (Z.land b 112) 4 * 36.
Proof.
  intros Hw Hh He Hs Hout Hin.
  destruct (aes_assemble_image_total input output width height Hw Hh He Hs Hout Hin)
    as (m & E & Hm).
  exists m. split; [exact E|]. split; [exact Hm|].
  intros c row Hc Hrow Erow.
  rewrite half_area in Hm, Hin by assumption.
  pose proof (even_double height He) as EH.
  pose proof (even_double row Erow) as ER.
  set (H := height / 2) in *. set (j := row / 2) in *.
  rewrite EH in Hm, Hs, Hout. rewrite ER.
  eapply assembled_pair; eauto; lia.
Qed.

(** C1: for an even height and buffers of the declared sizes,
    [aes_assemble_image] returns; it reads the raw bytes in order, one byte
    per pass of the inner loop (each byte is loaded for both of its samples);
    the byte [b] used at column [c] and row pair [(row, row + 1)] is the one
    at index [c * (height / 2) + row / 2] (column after column, row pair
    after row pair), and the function stores [(b & 0x07) * 36] at
    [width * row + c] and [((b & 0x70) >> 4) * 36] at
    [width * (row + 1) + c], which is what the image holds at the end.  For
    width 2, height 2 and raw bytes [0x12; 0x34] the image is
    [72; 144; 36; 108]. *)
Theorem assemble_image_layout (input output : list Z) (width height : Z) :
  0 <= width < 2 ^ 64 -> 0 <= height < 2 ^ 64 -> Z.even height = true ->
  width * height < 2 ^ 64 ->
  Z.of_nat (length output) = width * height ->
  width * height / 2 <= Z.of_nat (length input) ->
  (exists m,
     aes_assemble_image input width height output = Some m /\
     Z.of_nat (length (img m)) = width * height /\
     load_indices (accesses m)
       = flat_map (fun p => [p; p])
           (map Z.of_nat (seq 0 (Z.to_nat (width * height / 2)))) /\
     forall c row, 0 <= c < width -> 0 <= row < height -> Z.even row = true ->
       let b := nth (Z.to_nat (c * (height / 2) + row / 2)) input 0 in
       In (Store (width * row + c) (Z.land b 7 * 36)) (accesses m) /\
       In (Store (width * (row + 1) + c) (Z.shiftr (Z.land b 112) 4 * 36)) (accesses m) /\
       nth (Z.to_nat (width * row + c)) (img m) 0 = Z.land b 7 * 36 /\
       nth (Z.to_nat (width * (row + 1) + c)) (img m) 0
         = Z.shiftr (Z.land b 112) 4 * 36) /\
  (forall o0 o1 o2 o3,
     option_map img (aes_assemble_image [18; 52] 2 2 [o0; o1; o2; o3])
     = Some [72; 144; 36; 108]).
Proof.
  intros Hw Hh He Hs Hout Hin. split; [|intros; vm_compute; reflexivity].
  destruct (aes_assemble_image_pairs input output width height Hw Hh He Hs Hout Hin)
    as (m & E & (Hr & Hl & Hnd & Hmem & Hpx & Hld & Hst) & Hp).
  exists m. repeat split; auto; apply Hp; auto.
Qed.

Lemma assemble_image_layout_witness :
  exists m, aes_assemble_image [18; 52] 2 2 [1; 2; 3; 4] = Some m /\
            img m = [72; 144; 36; 108].
Proof.
  destruct (assemble_image_layout [18; 52] [1; 2; 3; 4] 2 2) as [(m & E & _) X];
    [lia | lia | reflexivity | lia | reflexivity | vm_compute; discriminate |].
  exists m. split; [exact E|].
  specialize (X 1 2 3 4). rewrite E in X. simpl in X. congruence.
Defined.

Lemma in_load_indices (t : list access) (p : Z) :
  In (Load p) t -> In p (load_indices t).
Proof.
  intros Hin. unfold load_indices. apply in_flat_map.
  exists (Load p). simpl. auto.
Qed.

Lemma in_store_indices (t : list access) (i v : Z) :
  In (Store i v) t -> In i (store_indices t).
Proof.
  intros Hin. unfold store_indices. apply in_flat_map.
  exists (Store i v). simpl. auto.
Qed.

Lemma in_doubled_seq (n : nat) (p : Z) :
  In p (flat_map (fun p => [p; p]) (map Z.of_nat (seq 0 n))) -> 0 <= p < Z.of_nat n.
Proof.
  rewrite in_flat_map. intros (q & Hq & Hp).
  apply in_map_iff in Hq. destruct Hq as (k & <- & Hk). apply in_seq in Hk.
  simpl in Hp. destruct Hp as [<-|[<-|[]]]; lia.
Qed.

(** C7: for an even height, [aes_assemble_image] loads only raw indices
    [0 .. width * height / 2 - 1], all inside the raw buffer; it stores only
    inside the image, and every index of the image is stored to exactly
    once; each image index is [width * row + c] or [width * (row + 1) + c]
    for an even [row] and a column [c]. *)
Theorem assemble_image_accesses (input output : list Z) (width height : Z) :
  0 <= width < 2 ^ 64 -> 0 <= height < 2 ^ 64 -> Z.even height = true ->
  width * height < 2 ^ 64 ->
  Z.of_nat (length output) = width * height ->
  width * height / 2 <= Z.of_nat (length input) ->
  exists m,
    aes_assemble_image input width height output = Some m /\
    (forall p, In (Load p) (accesses m) ->
               0 <= p < width * height / 2 /\ p < Z.of_nat (length input)) /\
    (forall i v, In (Store i v) (accesses m) -> 0 <= i < width * height) /\
    (forall i, 0 <= i < width * height ->
               count_occ Z.eq_dec (store_indices (accesses m)) i = 1%nat) /\
    (forall i, 0 <= i < width * height ->
               exists c row, 0 <= c < width /\ 0 <= row < height /\ Z.even row = true /\
                             (i = width * row + c \/ i = width * (row + 1) + c)).
Proof.
  intros Hw Hh He Hs Hout Hin.
  destruct (aes_assemble_image_total input output width height Hw Hh He Hs Hout Hin)
    as (m & E & (Hr & Hl & Hnd & Hmem & Hpx & Hld & Hst)).
  assert (Hhalf : 0 <= width * height / 2) by (apply Z.div_pos; nia).
  exists m. split; [exact E|]. repeat split.
  - apply in_load_indices in H. rewrite Hld in H. apply in_doubled_seq in H. lia.
  - apply in_load_indices in H. rewrite Hld in H. apply in_doubled_seq in H. lia.
  - apply in_load_indices in H. rewrite Hld in H. apply in_doubled_seq in H. lia.
  - apply in_store_indices in H. apply Hmem in H. lia.
  - apply in_store_indices in H. apply Hmem in H. lia.
  - intros i Hi. apply NoDup_count_occ'; [exact Hnd|].
    apply Hmem. split; [exact Hi|].
    rewrite half_area by assumption.
    pose proof (even_double height He) as EH. set (H := height / 2) in *.
    rewrite EH in Hi, Hs |- *.
    apply (source_index_bound width H); lia.
  - intros i Hi.
    assert (0 < width) by nia.
    pose proof (Z.div_mod i width ltac:(lia)) as D.
    pose proof (Z.mod_pos_bound i width ltac:(lia)) as B.
    assert (Hrow : 0 <= i / width < height) by nia.
    exists (i mod width). destruct (Z.even (i / width)) eqn:Er.
    + exists (i / width). repeat split; auto; lia.
    + exists (i / width - 1).
      assert (Z.even (i / width - 1) = true).
      { replace (i / width - 1) with (Z.pred (i / width)) by lia.
        rewrite Z.even_pred, <- Z.negb_even, Er. reflexivity. }
      assert (i / width <> 0) by (intros Z0; rewrite Z0 in Er; discriminate).
      repeat split; auto; lia.
Qed.

Lemma assemble_image_accesses_witness :
  exists m, aes_assemble_image [18; 52] 2 2 [1; 2; 3; 4] = Some m /\
            count_occ Z.eq_dec (store_indices (accesses m)) 3 = 1%nat.
Proof.
  destruct (assemble_image_accesses [18; 52] [1; 2; 3; 4] 2 2) as (m & E & _ & _ & C & _);
    [lia | lia | reflexivity | lia | reflexivity | vm_compute; discriminate |].
  exists m. split; [exact E|]. apply C. lia.
Defined.

Lemma pixel_sample (input : list Z) (width height i : Z) :
  exists x, 0 <= x <= 7 /\ pixel input width height i = x * 36.
Proof.
  unfold pixel. destruct (Z.even (i / width)); eexists; (split; [|reflexivity]).
  - apply land_7_range.
  - apply sample_range.
Qed.

Lemma pixel_depends (input input' : list Z) (width height i : Z) :
  let k := Z.to_nat (source_index width height i) in
  let mask := if Z.even (i / width) then 7 else 112 in
  Z.land (nth k input 0) mask = Z.land (nth k input' 0) mask ->
  pixel input width height i = pixel input' width height i.
Proof.
  unfold pixel. destruct (Z.even (i / width)); cbv zeta; intros ->; reflexivity.
Qed.

Lemma land_119 (b b' mask : Z) :
  mask = 7 \/ mask = 112 ->
  Z.land b 119 = Z.land b' 119 -> Z.land b mask = Z.land b' mask.
Proof.
  intros Hm E.
  assert (M : Z.land 119 mask = mask) by (destruct Hm; subst; reflexivity).
  rewrite <- M, !Z.land_assoc, E. reflexivity.
Qed.

(** C10: every value [aes_assemble_image] stores is [x * 36] for some [x] in
    [0 .. 7], so it lies in [0 .. 252] and the conversion to [unsigned char]
    leaves it as it is; the image holds such a value at every index.  The
    byte at index [i] depends on its one source byte only, and of that byte
    only on bits 0 to 2 (mask 7) on an even row, on bits 4 to 6 (mask 112)
    on an odd row: two raw buffers that agree there give the same byte at
    [i], whatever the output buffers held before.  So raw buffers that differ
    only in bits 3 and 7 of their bytes (agree under mask 0x77) give the same
    image. *)
Theorem assemble_image_samples (input input' output output' : list Z) (width height : Z) :
  0 <= width < 2 ^ 64 -> 0 <= height < 2 ^ 64 -> Z.even height = true ->
  width * height < 2 ^ 64 ->
  Z.of_nat (length output) = width * height ->
  Z.of_nat (length output') = width * height ->
  width * height / 2 <= Z.of_nat (length input) ->
  width * height / 2 <= Z.of_nat (length input') ->
  exists m m',
    aes_assemble_image input width height output = Some m /\
    aes_assemble_image input' width height output' = Some m' /\
    (forall i v, In (Store i v) (accesses m) ->
       exists x, 0 <= x <= 7 /\ v = x * 36 /\ 0 <= v <= 252 /\ to_uchar v = v) /\
    (forall i, 0 <= i < width * height ->
       exists x, 0 <= x <= 7 /\ nth (Z.to_nat i) (img m) 0 = x * 36) /\
    (forall i, 0 <= i < width * height ->
       let k := Z.to_nat (source_index width height i) in
       let mask := if Z.even (i / width) then 7 else 112 in
       Z.land (nth k input 0) mask = Z.land (nth k input' 0) mask ->
       nth (Z.to_nat i) (img m) 0 = nth (Z.to_nat i) (img m') 0) /\
    ((forall k, Z.land (nth k input 0) 119 = Z.land (nth k input' 0) 119) ->
     img m = img m').
Proof.
  intros Hw Hh He Hs Hout Hout' Hin Hin'.
  destruct (aes_assemble_image_total input output width height Hw Hh He Hs Hout Hin)
    as (m & E & (Hr & Hl & Hnd & Hmem & Hpx & Hld & Hst)).
  destruct (aes_assemble_image_total input' output' width height Hw Hh He Hs Hout' Hin')
    as (m' & E' & (Hr' & Hl' & Hnd' & Hmem' & Hpx' & Hld' & Hst')).
  assert (Hsrc : forall i, 0 <= i < width * height ->
                           source_index width height i < width * height / 2).
  { intros i Hi. rewrite half_area by assumption.
    pose proof (even_double height He) as EH. set (H := height / 2) in *.
    rewrite EH in Hi |- *. apply (source_index_bound width H); lia. }
  assert (Hdep : forall i, 0 <= i < width * height ->
       let k := Z.to_nat (source_index width height i) in
       let mask := if Z.even (i / width) then 7 else 112 in
       Z.land (nth k input 0) mask = Z.land (nth k input' 0) mask ->
       nth (Z.to_nat i) (img m) 0 = nth (Z.to_nat i) (img m') 0).
  { intros i Hi k mask Hb. rewrite Hpx, Hpx' by auto. apply pixel_depends. exact Hb. }
  exists m, m'. split; [exact E|]. split; [exact E'|]. split; [|split; [|split]].
  - intros i v Hv. rewrite (Hst i v Hv).
    destruct (pixel_sample input width height i) as (x & Hx & ->).
    exists x. repeat split; try lia. apply to_uchar_scaled; lia.
  - intros i Hi. rewrite Hpx by auto. apply pixel_sample.
  - exact Hdep.
  - intros Hb. apply (nth_ext _ _ 0 0); [lia|].
    intros n Hn. rewrite <- (Nat2Z.id n). apply Hdep; [lia|].
    apply land_119; [destruct (Z.even (Z.of_nat n / width)); auto | apply Hb].
Qed.

Lemma assemble_image_samples_witness :
  exists m m',
    aes_assemble_image [18; 52] 2 2 [1; 2; 3; 4] = Some m /\
    aes_assemble_image [154; 188] 2 2 [0; 0; 0; 0] = Some m' /\
    img m = img m'.
Proof.
  destruct (assemble_image_samples [18; 52] [154; 188] [1; 2; 3; 4] [0; 0; 0; 0] 2 2)
    as (m & m' & E & E' & _ & _ & _ & X);
    [lia | lia | reflexivity | lia | reflexivity | reflexivity
     | vm_compute; discriminate | vm_compute; discriminate |].
  exists m, m'. split; [exact E|]. split; [exact E'|]. apply X.
  intros [|[|[|k]]]; reflexivity.
Defined.

(* ------------------------------------------------------------------------- *)
(** * Part VI: further properties of the register writer *)

Lemma cursor_of_snoc (l : list event) (e : event) :
  cursor_of (l ++ [e]) = cursor_step (cursor_of l) e.
Proof. unfold cursor_of. rewrite fold_left_app. reflexivity. Qed.

Lemma encode_half (b : list aes_regwrite) :
  Z.of_nat (length (encode b)) / 2 = Z.of_nat (length b).
Proof.
  rewrite encode_length, Z.mul_comm. apply Z.div_mul. lia.
Qed.

Lemma payloads_snoc_submit (l : list event) (first : Z) (data : list Z) (acc : bool) :
  length (payloads (l ++ [Submit first data acc])) = S (length (payloads l)).
Proof. rewrite payloads_app, length_app. cbn. lia. Qed.

Lemma payloads_snoc_callback (l : list event) (d s u : Z) :
  payloads (l ++ [Callback d s u]) = payloads l.
Proof. rewrite payloads_app. cbn. apply app_nil_r. Qed.

Lemma statuses_snoc_submit (l : list event) (first : Z) (data : list Z) (acc : bool) :
  statuses (l ++ [Submit first data acc]) = statuses l.
Proof. rewrite statuses_app. cbn. apply app_nil_r. Qed.

Lemma accepted_snoc (l : list event) (e : event) :
  accepted (l ++ [e])
  = accepted l ++ match e with Submit _ d true => [d] | _ => [] end.
Proof.
  unfold accepted. rewrite flat_map_app. cbn [flat_map]. rewrite app_nil_r. reflexivity.
Qed.

Lemma firstn_add {A} (a k : nat) (x : list A) :
  firstn (a + k) x = firstn a x ++ firstn k (skipn a x).
Proof.
  revert x; induction a as [|a IH]; intros [|y x]; cbn [Nat.add firstn skipn app]; auto.
  - rewrite firstn_nil. reflexivity.
  - f_equal. apply IH.
Qed.

Lemma filter_all_writes (b : list aes_regwrite) :
  Forall (fun r => is_barrier r = false) b -> filter is_write b = b.
Proof.
  induction 1 as [|r b Hr Hb IH]; [reflexivity|].
  cbn [filter]. unfold is_write at 1. rewrite Hr. cbn [negb]. f_equal. exact IH.
Qed.

(** Up to the first batch there are barriers only. *)
Lemma batches_head_gap (l : list aes_regwrite) :
  forall (o pos : Z) (b : list aes_regwrite) (bs : list (Z * list aes_regwrite)),
    batches o l = (pos, b) :: bs ->
    filter is_write (firstn (Z.to_nat (pos - o)) l) = [] /\
    firstn (length b) (skipn (Z.to_nat (pos - o)) l) = b /\
    Forall (fun r => is_barrier r = false) b.
Proof.
  induction l as [|r l IH]; intros o pos b bs E; simp batches in E; [discriminate|].
  destruct (is_barrier r) eqn:Er.
  - destruct (IH _ _ _ _ E) as (G1 & G2 & G3).
    destruct (batches_head _ _ _ _ _ E) as (_ & _ & _ & _ & Hle & _).
    replace (Z.to_nat (pos - o)) with (S (Z.to_nat (pos - (o + 1)))) by lia.
    cbn [firstn skipn filter]. unfold is_write at 1. rewrite Er. cbn [negb]. auto.
  - injection E as <- <- <-. rewrite Z.sub_diag. split; [reflexivity|]. split.
    + change (r :: firstn (length (batch_run 15 l)) l = r :: batch_run 15 l).
      f_equal. apply batch_run_prefix.
    + constructor; [exact Er | exact (batch_run_no_barrier 15 l)].
Qed.

(** The writes before the first batch left and before its end, in terms of
    the writes before the cursor. *)
Lemma batches_segment (regs0 : list aes_regwrite) (off pos : Z)
    (b : list aes_regwrite) (bs : list (Z * list aes_regwrite)) :
  0 <= off ->
  batches off (skipn (Z.to_nat off) regs0) = (pos, b) :: bs ->
  filter is_write (firstn (Z.to_nat pos) regs0)
  = filter is_write (firstn (Z.to_nat off) regs0) /\
  filter is_write (firstn (Z.to_nat (pos + Z.of_nat (length b))) regs0)
  = filter is_write (firstn (Z.to_nat off) regs0) ++ b.
Proof.
  intros Hoff E.
  destruct (batches_head_gap _ _ _ _ _ E) as (G1 & G2 & G3).
  destruct (batches_head _ _ _ _ _ E) as (_ & _ & _ & _ & Hle & _).
  replace (Z.to_nat pos) with (Z.to_nat off + Z.to_nat (pos - off))%nat by lia.
  replace (Z.to_nat (pos + Z.of_nat (length b)))
    with (Z.to_nat off + (Z.to_nat (pos - off) + length b))%nat by lia.
  rewrite !firstn_add, !filter_app, G1, G2, (filter_all_writes b G3), app_nil_r.
  auto.
Qed.

Section Flight.

Variable transport : nat -> list Z -> transport_reply.

(** One call of [continue_write_regv] with no transfer in flight and no
    callback made so far. *)
Lemma next_world_flight (w : world) :
  0 <= offset (session w) ->
  inflight w = None ->
  offset (session w) = cursor_of (log w) ->
  concat (accepted (log w))
  = encode (filter is_write (firstn (Z.to_nat (offset (session w))) (regs (session w)))) ->
  length (payloads (log w)) = submissions w ->
  statuses (log w) = [] ->
  let w1 := next_world transport w in
  offset (session w1) = cursor_of (log w1) /\
  concat (accepted (log w1))
  = encode (filter is_write (firstn (Z.to_nat (offset (session w1))) (regs (session w1)))) /\
  length (payloads (log w1)) = submissions w1 /\
  (submissions w1 <= S (submissions w))%nat /\
  match inflight w1 with
  | Some u =>
      statuses (log w1) = [] /\
      exists pre first b,
        log w1 = pre ++ [Submit first (encode b) true] /\
        urb_msg u = mk_msg EP_OUT (encode b) (2 * Z.of_nat (length b)) /\
        (1 <= length b <= 16)%nat
  | None =>
      forall pre d u0, log w1 = pre ++ [Callback d 0 u0] -> remaining w1 = []
  end.
Proof.
  intros Hoff Hidle Hcur Hacc Hpay Hst. unfold next_world.
  destruct (batches (offset (session w)) _) as [|[pos b] bs] eqn:Eb.
  - cbn [callback session log submissions inflight]. rewrite Hidle.
    rewrite cursor_of_snoc, payloads_snoc_callback, accepted_snoc, app_nil_r.
    cbn [cursor_step].
    repeat split; auto.
  - destruct (remaining_next _ _ _ _ _ Hoff Eb) as (Hp & Hb & Hle & Hbs).
    destruct (batches_segment _ _ _ _ _ Hoff Eb) as (Sg1 & Sg2).
    unfold submitted. cbn [with_session submissions session].
    destruct (transport (submissions w) (encode b)) as [|st al].
    + change (- EIO <? 0) with true. cbv iota.
      unfold with_session, set_offset.
      cbn [callback session log submissions inflight offset regs imgdev user_data].
      rewrite Hidle. rewrite !cursor_of_snoc, payloads_snoc_callback,
        payloads_snoc_submit, !accepted_snoc, !app_nil_r, Sg1. cbn [cursor_step].
      repeat split; auto; try lia.
      intros pre d u0 E. apply app_inj_tail in E. destruct E as [_ E].
      discriminate.
    + change (0 <? 0) with false. cbv iota.
      unfold with_session, set_offset.
      cbn [session log submissions inflight offset regs].
      rewrite cursor_of_snoc, payloads_snoc_submit, statuses_snoc_submit,
        accepted_snoc, concat_app, Sg2, encode_app, Hacc.
      cbn [cursor_step concat]. rewrite encode_half, app_nil_r.
      repeat split; auto; try lia.
      exists (log w), pos, b. repeat split; auto; lia.
Qed.

Lemma handle_events_flight (dev : Z) (regs0 : list aes_regwrite) (ud : Z)
    (n : nat) (w : world) :
  Z.of_nat (length regs0) <= INT_MAX ->
  progress transport dev regs0 ud n w ->
  flight_inv n w ->
  exists w', handle_events transport w = Some w' /\
             progress transport dev regs0 ud (S n) w' /\
             flight_inv (S n) w'.
Proof.
  intros Hmax Hw (Hcur & Hacc & Hpay & Hsub & Hfl).
  destruct (handle_events_progress transport dev regs0 ud n w Hmax Hw) as (w' & E & Hw').
  exists w'. split; [exact E|]. split; [exact Hw'|].
  destruct Hw as (Hdev & Hregs & Hnum & Hud & Hoff & Hlog & Hleft).
  pose proof int_max_value as IM.
  unfold handle_events in E. destruct (inflight w) as [u|] eqn:Hu.
  2:{ injection E as <-. unfold flight_inv. rewrite Hu.
      repeat split; auto. }
  destruct Hfl as (Hst & pre & first & b & Hl & Hm & Hb).
  set (w0 := {| session := session w; inflight := None; log := log w;
                submissions := submissions w |}) in *.
  unfold write_regv_trf_complete in E.
  destruct (negb (status_completed (urb_status u))).
  { injection E as <-. unfold flight_inv.
    cbn [callback w0 session log submissions inflight].
    rewrite cursor_of_snoc, payloads_snoc_callback, accepted_snoc, app_nil_r.
    cbn [cursor_step].
    repeat split; auto.
    intros p d u0 X. apply app_inj_tail in X. destruct X as [_ X]. discriminate. }
  destruct (negb (msg_length (urb_msg u) =? urb_actual_length u)).
  { injection E as <-. unfold flight_inv.
    cbn [callback w0 session log submissions inflight].
    rewrite cursor_of_snoc, payloads_snoc_callback, accepted_snoc, app_nil_r.
    cbn [cursor_step].
    repeat split; auto.
    intros p d u0 X. apply app_inj_tail in X. destruct X as [_ X]. discriminate. }
  assert (Hok : session_ok (session w0)) by (split; cbn; rewrite ?Hregs; lia).
  assert (Hint : num_regs (session w0) <= INT_MAX) by (cbn; lia).
  rewrite (continue_write_regv_spec transport w0 Hok Hint Hoff) in E. injection E as <-.
  destruct (next_world_flight w0 (proj1 Hoff) eq_refl Hcur Hacc Hpay Hst)
    as (F1 & Fa & F2 & F3 & F4).
  unfold flight_inv. change (submissions w0) with (submissions w) in F3.
  repeat split; auto. lia.
Qed.

Lemma operation_flight (dev : Z) (regs0 : list aes_regwrite) (ud : Z) (n : nat) :
  Z.of_nat (length regs0) <= INT_MAX ->
  exists w, operation transport dev regs0 (Z.of_nat (length regs0)) ud n = Some w /\
            progress transport dev regs0 ud n w /\
            flight_inv n w.
Proof.
  intros Hmax. pose proof int_max_value as IM. unfold operation.
  destruct (aes_write_regv_progress transport dev regs0 ud Hmax) as (w0 & E0 & Hw0).
  rewrite E0. cbn [bind].
  assert (F0 : flight_inv 0 w0).
  { unfold aes_write_regv in E0.
    set (wi := {| session := _; inflight := None; log := []; submissions := 0 |}) in E0.
    assert (Hok : session_ok (session wi)) by (split; cbn; lia).
    assert (Hint : num_regs (session wi) <= INT_MAX) by (cbn; lia).
    assert (Hoff : 0 <= offset (session wi) <= num_regs (session wi)) by (cbn; lia).
    rewrite (continue_write_regv_spec transport wi Hok Hint Hoff) in E0. injection E0 as <-.
    destruct (next_world_flight wi (proj1 Hoff) eq_refl eq_refl eq_refl eq_refl eq_refl)
      as (F1 & Fa & F2 & F3 & F4).
    unfold flight_inv. repeat split; auto. }
  clear E0. revert w0 Hw0 F0.
  assert (G : forall m k w0, progress transport dev regs0 ud k w0 -> flight_inv k w0 ->
              exists w, handle_events_n transport m w0 = Some w /\
                        progress transport dev regs0 ud (k + m) w /\
                        flight_inv (k + m) w).
  { induction m as [|m IH]; intros k w0 Hw0 F0; cbn [handle_events_n].
    - exists w0. rewrite Nat.add_0_r. auto.
    - destruct (handle_events_flight dev regs0 ud k w0 Hmax Hw0 F0) as (w1 & E1 & Hw1 & F1).
      rewrite E1. cbn [bind]. replace (k + S m)%nat with (S k + m)%nat by lia.
      apply IH; assumption. }
  intros w0 Hw0 F0. apply (G n 0%nat w0 Hw0 F0).
Qed.

End Flight.

Lemma batches_nil_barriers (l : list aes_regwrite) :
  forall pos, batches pos l = [] -> Forall (fun r => reg r = 0) l.
Proof.
  induction l as [|r l IH]; intros pos E; [constructor|].
  simp batches in E. destruct (is_barrier r) eqn:Er; [|discriminate].
  constructor; [apply is_barrier_true; exact Er | apply (IH _ E)].
Qed.

(** X1: at every round of an operation on a sequence of at most [INT_MAX]
    entries, whatever the transport does, a transfer in flight goes to the
    endpoint [EP_OUT]; its length field is the number of bytes of its buffer, which
    is even and between 2 and 32; the buffer is that of the last submission
    of the log, which was accepted; the cursor already stands after the
    writes of that buffer; and the callback has not been invoked. *)
Theorem write_regv_inflight (transport : nat -> list Z -> transport_reply)
    (dev ud : Z) (regs0 : list aes_regwrite) (n : nat) :
  Z.of_nat (length regs0) <= INT_MAX ->
  exists w,
    operation transport dev regs0 (Z.of_nat (length regs0)) ud n = Some w /\
    forall u, inflight w = Some u ->
      statuses (log w) = [] /\
      msg_endpoint (urb_msg u) = EP_OUT /\
      msg_length (urb_msg u) = Z.of_nat (length (msg_data (urb_msg u))) /\
      2 <= msg_length (urb_msg u) <= 2 * MAX_REGWRITES_PER_REQUEST /\
      Z.even (msg_length (urb_msg u)) = true /\
      exists pre first,
        log w = pre ++ [Submit first (msg_data (urb_msg u)) true] /\
        offset (session w) = first + msg_length (urb_msg u) / 2.
Proof.
  intros Hmax.
  destruct (operation_flight transport dev regs0 ud n Hmax)
    as (w & E & _ & (Hcur & _ & _ & _ & Hfl)).
  exists w. split; [exact E|]. intros u Hu. rewrite Hu in Hfl.
  destruct Hfl as (Hst & pre & first & b & Hl & Hm & Hb).
  rewrite Hm. cbn [msg_endpoint msg_length msg_data].
  unfold MAX_REGWRITES_PER_REQUEST.
  split; [exact Hst|]. split; [reflexivity|].
  split; [symmetry; apply encode_length|]. split; [lia|].
  split; [rewrite Z.even_mul; reflexivity|].
  exists pre, first. split; [exact Hl|].
  rewrite Hcur, Hl, cursor_of_snoc. cbn [cursor_step].
  rewrite encode_half. f_equal. rewrite Z.mul_comm. symmetry. apply Z.div_mul. lia.
Qed.

Lemma write_regv_inflight_witness :
  exists w,
    operation always_ok 7 [rw 128 1; rw 0 0; rw 129 2] 3 9 0 = Some w /\
    forall u, inflight w = Some u -> msg_endpoint (urb_msg u) = EP_OUT.
Proof.
  destruct (write_regv_inflight always_ok 7 9 [rw 128 1; rw 0 0; rw 129 2] 0)
    as (w & E & X); [vm_compute; discriminate|].
  exists w. split; [exact E|]. intros u Hu. apply (X u Hu).
Defined.

(** X2: at every round of an operation on a sequence of at most [INT_MAX]
    entries, the cursor of the session is the one its log
    accounts for ([cursor_of]): 0 before any submission, the start of the
    batch after a rejected submission, the index after the batch once a
    submission was accepted.  When the operation has ended with status 0,
    the entries from the cursor on are all barriers (the cursor itself need
    not be [num_regs]: trailing barriers are skipped without moving it). *)
Theorem write_regv_cursor (transport : nat -> list Z -> transport_reply)
    (dev ud : Z) (regs0 : list aes_regwrite) (n : nat) :
  Z.of_nat (length regs0) <= INT_MAX ->
  exists w,
    operation transport dev regs0 (Z.of_nat (length regs0)) ud n = Some w /\
    offset (session w) = cursor_of (log w) /\
    (forall pre, inflight w = None -> log w = pre ++ [Callback dev 0 ud] ->
       Forall (fun r => reg r = 0) (skipn (Z.to_nat (offset (session w))) regs0)).
Proof.
  intros Hmax.
  destruct (operation_flight transport dev regs0 ud n Hmax)
    as (w & E & (_ & Hregs & _) & (Hcur & _ & _ & _ & Hfl)).
  exists w. split; [exact E|]. split; [exact Hcur|].
  intros pre Hi Hl. rewrite Hi in Hfl. specialize (Hfl _ _ _ Hl).
  unfold remaining in Hfl. rewrite Hregs in Hfl.
  apply (batches_nil_barriers _ _ Hfl).
Qed.

Lemma write_regv_cursor_witness :
  exists w,
    operation always_ok 7 [rw 128 1; rw 0 0] 2 9 1 = Some w /\
    offset (session w) = 1.
Proof.
  destruct (write_regv_cursor always_ok 7 9 [rw 128 1; rw 0 0] 1)
    as (w & E & C & _); [vm_compute; discriminate|].
  exists w. split; [exact E|]. rewrite C.
  vm_compute in E. injection E as <-. reflexivity.
Defined.

(** ** Batches are as long as the limit and the barriers allow *)

Lemma batch_run_maximal (n : nat) (l : list aes_regwrite) :
  length (batch_run n l) = n \/
  match nth_error l (length (batch_run n l)) with
  | Some r => is_barrier r = true
  | None => True
  end.
Proof.
  revert l; induction n as [|n IH]; intros [|r l]; cbn [batch_run length nth_error];
    auto.
  destruct (is_barrier r) eqn:Er; cbn [length nth_error]; auto.
  destruct (IH l) as [E|E]; [left; lia | right; exact E].
Qed.

Lemma batches_maximal (pos : Z) (l : list aes_regwrite) :
  Forall (fun pb =>
            pos <= fst pb /\
            (length (snd pb) = 16%nat \/
             match nth_error l (Z.to_nat (fst pb - pos) + length (snd pb)) with
             | Some r => is_barrier r = true
             | None => True
             end))
         (batches pos l).
Proof.
  funelim (batches pos l); simp batches; [constructor|].
  destruct (is_barrier r) eqn:E.
  - eapply Forall_impl; [|exact H]. intros [p b]. cbn [fst snd]. intros [B1 B2].
    split; [lia|].
    replace (Z.to_nat (p - pos)) with (S (Z.to_nat (p - (pos + 1)))) by lia.
    exact B2.
  - constructor.
    + cbn [fst snd length]. split; [lia|]. rewrite Z.sub_diag. cbn [Z.to_nat Nat.add nth_error].
      destruct (batch_run_maximal 15 l') as [M|M]; [left; lia | right; exact M].
    + eapply Forall_impl; [|exact H0]. intros [p b]. cbn [fst snd]. intros [B1 B2].
      split; [lia|]. rewrite nth_error_skipn in B2.
      replace (Z.to_nat (p - pos) + length b)%nat with
        (S (length (batch_run 15 l')
            + (Z.to_nat (p - (pos + 1 + Z.of_nat (length (batch_run 15 l'))))
               + length b)))%nat by lia.
      exact B2.
Qed.

Section Counts.

Variable transport : nat -> list Z -> transport_reply.
Variables dev ud : Z.
Variable regs0 : list aes_regwrite.
Hypothesis Hmax : Z.of_nat (length regs0) <= INT_MAX.

(** The submissions in the log of an operation, at any round, are batches of
    the sequence, and there are no more of them than batches. *)
Lemma operation_submits_in (n : nat) :
  exists w, operation transport dev regs0 (Z.of_nat (length regs0)) ud n = Some w /\
            (length (payloads (log w)) <= length (batches 0 regs0))%nat /\
            forall first data acc,
              In (Submit first data acc) (log w) ->
              exists b, data = encode b /\ In (first, b) (batches 0 regs0).
Proof.
  destruct (operation_served transport dev ud regs0 Hmax)
    as (subs & s & Hs & Hf & Hz & Hpre & Hrun).
  destruct (Hpre n) as (w & rest & E & Hl).
  exists w. split; [exact E|]. split.
  - apply (f_equal payloads) in Hl. rewrite !payloads_app in Hl.
    destruct (submits_payloads _ _ Hf) as [Hp _]. rewrite Hp in Hl.
    apply (f_equal (@length (list Z))) in Hl.
    rewrite !length_app, length_map, length_firstn in Hl. cbn in Hl. lia.
  - intros first data acc Hin.
    assert (Hin' : In (Submit first data acc) (subs ++ [Callback dev s ud]))
      by (rewrite <- Hl; apply in_or_app; left; exact Hin).
    apply in_app_or in Hin'. destruct Hin' as [Hin'|[Hc|[]]]; [|discriminate].
    destruct (submits_in _ _ _ _ _ Hf Hin') as (b & Hb & ->).
    exists b. split; [reflexivity|]. apply in_firstn in Hb. exact Hb.
Qed.

End Counts.

(** X3: a submitted buffer is as long as the limit and the barriers allow:
    at every round of an operation on a sequence of at most [INT_MAX]
    entries and whatever the transport does, each submission carries
    16 writes, or ends with the last entry of the sequence, or is followed
    in the sequence by a barrier. *)
Theorem write_regv_maximal (transport : nat -> list Z -> transport_reply)
    (dev ud : Z) (regs0 : list aes_regwrite) (n : nat) :
  Z.of_nat (length regs0) <= INT_MAX ->
  exists w,
    operation transport dev regs0 (Z.of_nat (length regs0)) ud n = Some w /\
    forall first data acc,
      In (Submit first data acc) (log w) ->
      let writes := Z.of_nat (length data) / 2 in
      writes = MAX_REGWRITES_PER_REQUEST \/
      first + writes = Z.of_nat (length regs0) \/
      (first + writes < Z.of_nat (length regs0) /\
       reg (nth (Z.to_nat (first + writes)) regs0 (rw 1 0)) = 0).
Proof.
  intros Hmax.
  destruct (operation_submits_in transport dev ud regs0 Hmax n) as (w & E & _ & Hsub).
  exists w. split; [exact E|]. intros first data acc Hin writes.
  destruct (Hsub first data acc Hin) as (b & -> & Hb).
  unfold writes. rewrite encode_half. unfold MAX_REGWRITES_PER_REQUEST.
  pose proof (batches_ok 0 regs0) as Hok. rewrite Forall_forall in Hok.
  destruct (Hok _ Hb) as (B1 & B2 & B3 & _).
  pose proof (batches_maximal 0 regs0) as Hm. rewrite Forall_forall in Hm.
  destruct (Hm _ Hb) as [_ [M|M]]; cbn [fst snd] in *; [left; lia|].
  rewrite Z.sub_0_r in M.
  destruct (nth_error regs0 (Z.to_nat first + length b)) as [r|] eqn:En.
  - right. right.
    assert (Hlt : (Z.to_nat first + length b < length regs0)%nat)
      by (apply nth_error_Some; rewrite En; discriminate).
    split; [lia|].
    replace (Z.to_nat (first + Z.of_nat (length b)))
      with (Z.to_nat first + length b)%nat by lia.
    rewrite (nth_error_nth _ _ _ En). apply is_barrier_true. exact M.
  - right. left. apply nth_error_None in En. lia.
Qed.

Lemma write_regv_maximal_witness :
  exists w,
    operation always_ok 7 [rw 128 1; rw 0 0; rw 129 2] 3 9 3 = Some w /\
    forall first data acc,
      In (Submit first data acc) (log w) ->
      let writes := Z.of_nat (length data) / 2 in
      writes = MAX_REGWRITES_PER_REQUEST \/
      first + writes = 3 \/
      (first + writes < 3 /\
       reg (nth (Z.to_nat (first + writes)) [rw 128 1; rw 0 0; rw 129 2] (rw 1 0)) = 0).
Proof.
  apply (write_regv_maximal always_ok 7 9 [rw 128 1; rw 0 0; rw 129 2] 3).
  vm_compute. discriminate.
Defined.

(** ** How many transfers *)

Lemma filter_batch_run (l : list aes_regwrite) :
  filter is_write l
  = batch_run 15 l ++ filter is_write (skipn (length (batch_run 15 l)) l).
Proof.
  rewrite <- (firstn_skipn (length (batch_run 15 l)) l) at 1.
  rewrite filter_app, batch_run_prefix, batch_run_filter. reflexivity.
Qed.

Lemma batches_count (pos : Z) (l : list aes_regwrite) :
  (length (batches pos l) <= length (filter is_write l)
   <= 16 * length (batches pos l))%nat.
Proof.
  funelim (batches pos l); simp batches; [cbn; lia|].
  cbn [filter]. assert (Ew : is_write r = negb (is_barrier r)) by reflexivity.
  rewrite Ew. destruct (is_barrier r) eqn:E; cbn [negb].
  - exact H.
  - pose proof (batch_run_length 15 l') as [R1 _].
    rewrite (filter_batch_run l'). cbn [length]. rewrite length_app. lia.
Qed.

(** With a transport that accepts and completes everything, the buffers of
    an operation are those of the batches of its sequence. *)
Lemma operation_payloads (transport : nat -> list Z -> transport_reply)
    (dev ud : Z) (regs0 : list aes_regwrite) (n : nat) :
  Z.of_nat (length regs0) <= INT_MAX ->
  (length regs0 <= n)%nat ->
  (forall k data,
     transport k data = Completes FP_URB_COMPLETED (Z.of_nat (length data))) ->
  exists w,
    operation transport dev regs0 (Z.of_nat (length regs0)) ud n = Some w /\
    inflight w = None /\
    payloads (log w) = map encode (map snd (batches 0 regs0)).
Proof.
  intros Hmax Hn Hok.
  destruct (operation_served transport dev ud regs0 Hmax)
    as (subs & s & Hs & Hf & Hz & _ & Hrun).
  destruct (Hrun n Hn) as (w & E & Hi & Hl).
  pose proof (served_always_ok transport Hok _ _ _ Hs) as S0. subst s.
  exists w. split; [exact E|]. split; [exact Hi|].
  rewrite Hl, payloads_snoc_callback.
  rewrite (Hz eq_refl), firstn_all in Hf.
  destruct (submits_payloads _ _ Hf) as [-> _]. rewrite map_map. reflexivity.
Qed.

(** X4: in an operation on a sequence of at most [INT_MAX] entries,
    [libusb_async_bulk_transfer] has been called at most [n + 1] times
    by round [n] (one call at most per entry into the writer), once per
    [Submit] event, and never more often than there are writes that are not
    barriers; when the callback got status 0, 16 times the number of calls
    is at least the number of such writes. *)
Theorem write_regv_transfer_count (transport : nat -> list Z -> transport_reply)
    (dev ud : Z) (regs0 : list aes_regwrite) (n : nat) :
  Z.of_nat (length regs0) <= INT_MAX ->
  exists w,
    operation transport dev regs0 (Z.of_nat (length regs0)) ud n = Some w /\
    submissions w = length (payloads (log w)) /\
    (length (payloads (log w)) <= S n)%nat /\
    (length (payloads (log w)) <= length (filter is_write regs0))%nat /\
    (statuses (log w) = [0] ->
     (length (filter is_write regs0)
      <= Z.to_nat MAX_REGWRITES_PER_REQUEST * length (payloads (log w)))%nat).
Proof.
  intros Hmax.
  destruct (operation_flight transport dev regs0 ud n Hmax)
    as (w & E & _ & (_ & _ & Hpay & Hsub & _)).
  exists w. split; [exact E|]. split; [symmetry; exact Hpay|].
  split; [lia|].
  destruct (operation_served transport dev ud regs0 Hmax)
    as (subs & s & Hs & Hf & Hz & Hpre & _).
  destruct (Hpre n) as (w' & rest & E' & Hl).
  rewrite E in E'. injection E' as <-.
  pose proof (batches_count 0 regs0) as [C1 C2].
  destruct (submits_payloads _ _ Hf) as [Hp Hst].
  pose proof (Forall2_length_eq _ _ _ Hf) as Hlen. rewrite length_firstn in Hlen.
  assert (Hle : (length (payloads (log w)) <= length subs)%nat).
  { apply (f_equal payloads) in Hl. rewrite !payloads_app in Hl.
    rewrite Hp in Hl. apply (f_equal (@length (list Z))) in Hl.
    rewrite !length_app, length_map, length_firstn in Hl. cbn in Hl. lia. }
  split; [lia|].
  intros Hdone. change (Z.to_nat MAX_REGWRITES_PER_REQUEST) with 16%nat.
  assert (Hs0 : s = 0 /\ rest = []).
  { pose proof (f_equal statuses Hl) as X. rewrite !statuses_app, Hdone, Hst in X.
    cbn in X. destruct (statuses rest) eqn:Er; [|discriminate].
    injection X as <-. split; [reflexivity|].
    destruct rest as [|e rest] using rev_ind; [reflexivity|].
    rewrite app_assoc in Hl. apply app_inj_tail in Hl. destruct Hl as [_ ->].
    rewrite statuses_app in Er. cbn in Er. destruct (statuses rest); discriminate. }
  destruct Hs0 as [-> ->]. rewrite app_nil_r in Hl.
  assert (Hall : length (payloads (log w)) = length (batches 0 regs0)).
  { rewrite Hl, payloads_snoc_callback, Hp, length_map, length_firstn.
    rewrite (Hz eq_refl). lia. }
  lia.
Qed.

Lemma write_regv_transfer_count_witness :
  exists w,
    operation always_ok 7 [rw 128 1; rw 0 0; rw 129 2] 3 9 0 = Some w /\
    (length (payloads (log w)) <= 1)%nat.
Proof.
  destruct (write_regv_transfer_count always_ok 7 9 [rw 128 1; rw 0 0; rw 129 2] 0)
    as (w & E & _ & X & _); [vm_compute; discriminate|].
  exists w. split; [exact E | exact X].
Defined.

(** ** A barrier splits an operation in two *)

Lemma batch_run_barrier (n : nat) (l l2 : list aes_regwrite) (bar : aes_regwrite) :
  is_barrier bar = true ->
  batch_run n (l ++ bar :: l2) = batch_run n l.
Proof.
  intros Hb. revert l; induction n as [|n IH]; intros [|r l]; cbn [batch_run app]; auto.
  - rewrite Hb. reflexivity.
  - destruct (is_barrier r); auto. f_equal. apply IH.
Qed.

Lemma batches_split (pos pos' : Z) (l l2 : list aes_regwrite) (bar : aes_regwrite) :
  is_barrier bar = true ->
  map snd (batches pos (l ++ bar :: l2))
  = map snd (batches pos l) ++ map snd (batches pos' l2).
Proof.
  intros Hb. remember (length l) as n eqn:Hn.
  assert (Hle : (length l <= n)%nat) by lia. clear Hn.
  revert l pos Hle. induction n as [|n IH]; intros [|r l] pos Hle;
    cbn [length] in Hle; try lia; cbn [app]; simp batches.
  - rewrite Hb. cbn [map app]. apply (batches_shift (length l2)). lia.
  - rewrite Hb. cbn [map app]. apply (batches_shift (length l2)). lia.
  - destruct (is_barrier r); [apply IH; lia|].
    rewrite (batch_run_barrier 15 l l2 bar Hb).
    cbn [map snd app]. f_equal.
    pose proof (batch_run_length 15 l) as [_ Hl].
    rewrite skipn_app.
    replace (length (batch_run 15 l) - length l)%nat with 0%nat by lia.
    cbn [skipn]. apply IH. rewrite length_skipn. lia.
Qed.

(** X5: a barrier splits an operation in two: when the transport accepts
    and completes every transfer, the buffers submitted for
    [regs1 ++ bar :: regs2], with [bar] a barrier and at most [INT_MAX]
    entries in all, are those submitted for [regs1] followed by those
    submitted for [regs2]. *)
Theorem write_regv_barrier_splits (transport : nat -> list Z -> transport_reply)
    (dev ud : Z) (regs1 regs2 : list aes_regwrite) (bar : aes_regwrite) (n : nat) :
  reg bar = 0 ->
  Z.of_nat (length (regs1 ++ bar :: regs2)) <= INT_MAX ->
  (length (regs1 ++ bar :: regs2) <= n)%nat ->
  (forall k data,
     transport k data = Completes FP_URB_COMPLETED (Z.of_nat (length data))) ->
  exists w w1 w2,
    operation transport dev (regs1 ++ bar :: regs2)
              (Z.of_nat (length (regs1 ++ bar :: regs2))) ud n = Some w /\
    operation transport dev regs1 (Z.of_nat (length regs1)) ud n = Some w1 /\
    operation transport dev regs2 (Z.of_nat (length regs2)) ud n = Some w2 /\
    payloads (log w) = payloads (log w1) ++ payloads (log w2).
Proof.
  intros Hb Hmax Hn Hok. apply is_barrier_true in Hb.
  assert (L : length (regs1 ++ bar :: regs2) = (length regs1 + S (length regs2))%nat)
    by (rewrite length_app; reflexivity).
  destruct (operation_payloads transport dev ud _ n Hmax Hn Hok) as (w & E & _ & P).
  destruct (operation_payloads transport dev ud regs1 n ltac:(lia) ltac:(lia) Hok)
    as (w1 & E1 & _ & P1).
  destruct (operation_payloads transport dev ud regs2 n ltac:(lia) ltac:(lia) Hok)
    as (w2 & E2 & _ & P2).
  exists w, w1, w2. repeat split; auto.
  rewrite P, P1, P2, (batches_split 0 0 regs1 regs2 bar Hb), map_app. reflexivity.
Qed.

Lemma write_regv_barrier_splits_witness :
  exists w w1 w2,
    operation always_ok 7 ([rw 128 1; rw 129 2] ++ rw 0 0 :: [rw 130 3]) 4 9 4 = Some w /\
    operation always_ok 7 [rw 128 1; rw 129 2] 2 9 4 = Some w1 /\
    operation always_ok 7 [rw 130 3] 1 9 4 = Some w2 /\
    payloads (log w) = payloads (log w1) ++ payloads (log w2).
Proof.
  apply (write_regv_barrier_splits always_ok 7 9 [rw 128 1; rw 129 2] [rw 130 3]
           (rw 0 0) 4);
    [reflexivity | vm_compute; discriminate | cbn; lia | reflexivity].
Defined.

Example no_barrier_no_split :
  option_map (fun w => payloads (log w))
    (operation always_ok 7 [rw 128 1; rw 129 2] 2 9 2)
  = Some [[128; 1; 129; 2]] /\
  option_map (fun w => payloads (log w)) (operation always_ok 7 [rw 128 1] 1 9 2)
  = Some [[128; 1]].
Proof. split; vm_compute; reflexivity. Qed.

(** X6: at every round of an operation on a sequence of at most [INT_MAX]
    entries and whatever the transport does, the buffers the
    transport accepted, put end to end, are the bytes of the writes before
    the cursor that are not barriers, in order: after a failure the session
    tells how far the operation got. *)
Theorem write_regv_partial (transport : nat -> list Z -> transport_reply)
    (dev ud : Z) (regs0 : list aes_regwrite) (n : nat) :
  Z.of_nat (length regs0) <= INT_MAX ->
  exists w,
    operation transport dev regs0 (Z.of_nat (length regs0)) ud n = Some w /\
    concat (accepted (log w))
    = encode (filter is_write (firstn (Z.to_nat (offset (session w))) regs0)).
Proof.
  intros Hmax.
  destruct (operation_flight transport dev regs0 ud n Hmax)
    as (w & E & (_ & Hregs & _) & (_ & Hacc & _)).
  exists w. split; [exact E|]. rewrite <- Hregs. exact Hacc.
Qed.

Lemma write_regv_partial_witness :
  exists w,
    operation (fun k _ => match k with
                          | O => Completes FP_URB_COMPLETED 2
                          | _ => Rejected
                          end)
              7 [rw 128 1; rw 0 0; rw 129 2] 3 9 3 = Some w /\
    concat (accepted (log w))
    = encode (filter is_write (firstn (Z.to_nat (offset (session w)))
                                      [rw 128 1; rw 0 0; rw 129 2])).
Proof.
  apply (write_regv_partial _ 7 9 [rw 128 1; rw 0 0; rw 129 2] 3).
  vm_compute. discriminate.
Defined.


(* ------------------------------------------------------------------------- *)
(** * Part VII: further properties of the image assembler *)

(** ** An odd height *)

Lemma assemble_rows_odd (width height column : Z) :
  height + 1 < 2 ^ 64 ->
  forall (k : nat) (j : Z) (fuel fuel' : nat) (p : Z) (m : image_mem),
    0 <= j -> 2 * (j + Z.of_nat k) = height + 1 ->
    (k < fuel)%nat -> (k < fuel')%nat ->
    assemble_rows fuel width height column (2 * j) p m
    = assemble_rows fuel' width (height + 1) column (2 * j) p m.
Proof.
  intros Hh. induction k as [|k IH]; intros j fuel fuel' p m Hj Hk Hf Hf';
    (destruct fuel as [|fuel]; [lia|]); (destruct fuel' as [|fuel']; [lia|]);
    cbn [assemble_rows].
  - replace (2 * j <? height) with false by (symmetry; apply Z.ltb_ge; lia).
    replace (2 * j <? height + 1) with false by (symmetry; apply Z.ltb_ge; lia).
    reflexivity.
  - replace (2 * j <? height) with true by (symmetry; apply Z.ltb_lt; lia).
    replace (2 * j <? height + 1) with true by (symmetry; apply Z.ltb_lt; lia).
    destruct (assemble_pair width column (2 * j) p m) as [m1|]; [|reflexivity].
    cbn [bind]. rewrite (to_size_t_small (2 * j + 2)) by lia.
    replace (2 * j + 2) with (2 * (j + 1)) by lia.
    apply IH; lia.
Qed.

Lemma assemble_columns_odd (width height : Z) :
  0 <= height -> height + 1 < 2 ^ 64 -> Z.odd height = true ->
  forall (fuel : nat) (column p : Z) (m : image_mem),
    assemble_columns fuel width height column p m
    = assemble_columns fuel width (height + 1) column p m.
Proof.
  intros H0 Hh Hodd.
  assert (Hhalf : 2 * ((height + 1) / 2) = height + 1).
  { pose proof (Zmod_odd height) as M. rewrite Hodd in M.
    pose proof (Z.div_mod height 2 ltac:(lia)) as D.
    assert (E : height + 1 = (height / 2 + 1) * 2) by lia.
    rewrite E at 1. rewrite Z.div_mul by lia. lia. }
  induction fuel as [|fuel IH]; intros column p m; cbn [assemble_columns];
    [reflexivity|].
  destruct (column <? width); [|reflexivity].
  pose proof (assemble_rows_odd width height column Hh
                (Z.to_nat ((height + 1) / 2)) 0
                (S (Z.to_nat height)) (S (Z.to_nat (height + 1))) p m
                ltac:(lia) ltac:(lia) ltac:(lia) ltac:(lia)) as R.
  change (2 * 0) with 0 in R. rewrite R.
  destruct (assemble_rows _ width (height + 1) column 0 p m) as [[p1 m1]|];
    [|reflexivity].
  cbn [bind]. apply IH.
Qed.

(** X7: for an odd height [aes_assemble_image] does what it does for
    [height + 1]: the inner loop pairs the last row with the row after it.
    With buffers large enough for [height + 1] rows it returns and stores at
    [width * height + c] for every column [c], beyond the [width * height]
    bytes of an image of [height] rows. *)
Theorem assemble_image_odd_height (input output : list Z) (width height : Z) :
  0 <= height -> Z.odd height = true -> height + 1 < 2 ^ 64 ->
  aes_assemble_image input width height output
  = aes_assemble_image input width (height + 1) output /\
  (0 <= width < 2 ^ 64 ->
   width * (height + 1) < 2 ^ 64 ->
   Z.of_nat (length output) = width * (height + 1) ->
   width * (height + 1) / 2 <= Z.of_nat (length input) ->
   exists m,
     aes_assemble_image input width height output = Some m /\
     forall c, 0 <= c < width ->
       exists v, In (Store (width * height + c) v) (accesses m)).
Proof.
  intros H0 Hodd Hh.
  assert (E : aes_assemble_image input width height output
              = aes_assemble_image input width (height + 1) output).
  { unfold aes_assemble_image.
    rewrite (assemble_columns_odd width height H0 Hh Hodd). reflexivity. }
  split; [exact E|]. intros Hw Hs Hout Hin.
  assert (Hev : Z.even (height + 1) = true).
  { change (height + 1) with (Z.succ height). rewrite Z.even_succ. exact Hodd. }
  assert (Hev' : Z.even (height - 1) = true).
  { change (height - 1) with (Z.pred height). rewrite Z.even_pred. exact Hodd. }
  destruct (aes_assemble_image_pairs input output width (height + 1)
              Hw ltac:(lia) Hev Hs Hout Hin) as (m & Em & _ & Hp).
  exists m. split; [rewrite E; exact Em|].
  intros c Hc.
  assert (Hpos : height <> 0) by (intros ->; discriminate).
  destruct (Hp c (height - 1) Hc ltac:(lia) Hev') as (_ & S2 & _).
  replace (height - 1 + 1) with height in S2 by lia.
  eexists. exact S2.
Qed.

Lemma assemble_image_odd_height_witness :
  aes_assemble_image [18; 52] 2 1 [0; 0; 0; 0]
  = aes_assemble_image [18; 52] 2 (1 + 1) [0; 0; 0; 0].
Proof.
  apply (assemble_image_odd_height [18; 52] [0; 0; 0; 0] 2 1);
    [lia | reflexivity | lia].
Defined.

Example odd_height_overruns :
  aes_assemble_image [18; 52] 2 1 [0; 0] = None /\
  option_map img (aes_assemble_image [18; 52] 2 1 [0; 0; 0; 0])
  = Some [72; 144; 36; 108].
Proof. split; vm_compute; reflexivity. Qed.

(** ** The accesses in order *)

Section Trace.

Variables (input : list Z) (width H : Z).
Hypothesis Hwidth : 0 <= width < 2 ^ 64.
Hypothesis HH : 0 <= H.
Hypothesis Hsize : width * (2 * H) < 2 ^ 64.
Hypothesis Hraw : width * H <= Z.of_nat (length input).

Lemma assemble_rows_trace (c : Z) (k : nat) :
  0 <= c < width ->
  forall (j : Z) (fuel : nat) (m : image_mem),
    0 <= j -> j + Z.of_nat k = H -> (k < fuel)%nat ->
    assembled input width (2 * H) (c * H + j) m ->
    exists m', assemble_rows fuel width (2 * H) c (2 * j) (c * H + j) m
               = Some (c * H + H, m') /\
               assembled input width (2 * H) (c * H + H) m' /\
               accesses m'
               = accesses m
                 ++ flat_map (fun i => pair_accesses input width (2 * H) c (Z.of_nat i))
                             (seq (Z.to_nat j) k).
Proof.
  intros Hc. induction k as [|k IH]; intros j fuel m Hj Hk Hf Hm;
    (destruct fuel as [|fuel]; [lia|]); cbn [assemble_rows].
  - replace (2 * j <? 2 * H) with false by (symmetry; apply Z.ltb_ge; lia).
    assert (j = H) by lia; subst j. exists m. cbn [seq flat_map].
    rewrite app_nil_r. auto.
  - replace (2 * j <? 2 * H) with true by (symmetry; apply Z.ltb_lt; lia).
    destruct (assemble_pair_spec input width H Hwidth HH Hsize Hraw c j m Hc
                ltac:(lia) Hm) as (m1 & E1 & Hm1).
    pose proof Hm as (Hr & Hl & _).
    pose proof (assemble_pair_run input width H Hwidth HH Hsize Hraw c j m Hc
                  ltac:(lia) Hr Hl) as R. cbv zeta in R.
    rewrite E1 in R. injection R as R.
    rewrite E1. cbn [bind].
    rewrite (to_size_t_small (2 * j + 2)) by nia.
    replace (2 * j + 2) with (2 * (j + 1)) by lia.
    replace (c * H + j + 1) with (c * H + (j + 1)) in * by lia.
    destruct (IH (j + 1) fuel m1 ltac:(lia) ltac:(lia) ltac:(lia) Hm1)
      as (m' & E' & Hm' & A').
    exists m'. split; [exact E'|]. split; [exact Hm'|].
    rewrite A', R. cbn [accesses seq flat_map]. rewrite <- app_assoc.
    f_equal. replace (Z.to_nat (j + 1)) with (S (Z.to_nat j)) by lia.
    f_equal. unfold pair_accesses.
    replace (2 * H / 2) with H by (symmetry; rewrite Z.mul_comm; apply Z.div_mul; lia).
    rewrite Z2Nat.id by lia. reflexivity.
Qed.

Lemma assemble_columns_trace (k : nat) :
  forall (c : Z) (fuel : nat) (m : image_mem),
    0 <= c -> c + Z.of_nat k = width -> (k < fuel)%nat ->
    assembled input width (2 * H) (c * H) m ->
    exists m', assemble_columns fuel width (2 * H) c (c * H) m
               = Some (width * H, m') /\
               accesses m'
               = accesses m
                 ++ flat_map (fun i => column_accesses input width (2 * H) (Z.of_nat i))
                             (seq (Z.to_nat c) k).
Proof.
  induction k as [|k IH]; intros c fuel m Hc Hk Hf Hm;
    (destruct fuel as [|fuel]; [lia|]); cbn [assemble_columns].
  - replace (c <? width) with false by (symmetry; apply Z.ltb_ge; lia).
    assert (c = width) by lia; subst c. exists m. cbn [seq flat_map].
    rewrite app_nil_r. auto.
  - replace (c <? width) with true by (symmetry; apply Z.ltb_lt; lia).
    assert (Hm0 : assembled input width (2 * H) (c * H + 0) m)
      by (rewrite Z.add_0_r; exact Hm).
    destruct (assemble_rows_trace c (Z.to_nat H) ltac:(lia) 0 (S (Z.to_nat (2 * H))) m
                ltac:(lia) ltac:(lia) ltac:(lia) Hm0)
      as (m1 & E1 & Hm1 & A1).
    rewrite Z.add_0_r in E1. change (2 * 0) with 0 in E1. rewrite E1. cbn [bind].
    rewrite (to_size_t_small (c + 1)) by lia.
    replace (c * H + H) with ((c + 1) * H) in * by lia.
    destruct (IH (c + 1) fuel m1 ltac:(lia) ltac:(lia) ltac:(lia) Hm1)
      as (m' & E' & A').
    exists m'. split; [exact E'|].
    rewrite A', A1. cbn [seq flat_map]. rewrite <- app_assoc.
    f_equal. replace (Z.to_nat (c + 1)) with (S (Z.to_nat c)) by lia.
    f_equal. unfold column_accesses.
    replace (2 * H / 2) with H by (symmetry; rewrite Z.mul_comm; apply Z.div_mul; lia).
    rewrite Z2Nat.id by lia. reflexivity.
Qed.

End Trace.

(** X8: for an even height and buffers of the declared sizes, the accesses
    of [aes_assemble_image] are, in this order: column after column, row pair
    after row pair, a load of the raw byte, the store of its low sample in
    the even row, a second load of the same byte and the store of its high
    sample in the odd row.  The raw buffer is left as it was. *)
Theorem assemble_image_trace (input output : list Z) (width height : Z) :
  0 <= width < 2 ^ 64 -> 0 <= height < 2 ^ 64 -> Z.even height = true ->
  width * height < 2 ^ 64 ->
  Z.of_nat (length output) = width * height ->
  width * height / 2 <= Z.of_nat (length input) ->
  exists m,
    aes_assemble_image input width height output = Some m /\
    raw m = input /\
    accesses m = image_accesses input width height.
Proof.
  intros Hw Hh He Hs Hout Hin.
  rewrite half_area in Hin by assumption.
  pose proof (even_double height He) as E.
  set (H := height / 2) in *. rewrite E in *. clearbody H.
  unfold aes_assemble_image.
  destruct (assemble_columns_trace input width H Hw ltac:(lia) Hs Hin
              (Z.to_nat width) 0 (S (Z.to_nat width))
              {| raw := input; img := output; accesses := [] |}
              ltac:(lia) ltac:(lia) ltac:(lia)
              (assembled_start input width H ltac:(lia) output Hout))
    as (m & Em & A).
  change (0 * H) with 0 in Em. rewrite Em. cbn [bind].
  exists m. split; [reflexivity|]. split.
  - destruct (aes_assemble_image_spec input width H Hw ltac:(lia) Hs Hin output Hout)
      as (m2 & E2 & (Hr & _)).
    unfold aes_assemble_image in E2. rewrite Em in E2. cbn [bind] in E2.
    injection E2 as <-. exact Hr.
  - rewrite A. reflexivity.
Qed.

Lemma assemble_image_trace_witness :
  exists m,
    aes_assemble_image [18; 52] 2 2 [1; 2; 3; 4] = Some m /\
    accesses m
    = [Load 0; Store 0 72; Load 0; Store 2 36; Load 1; Store 1 144; Load 1; Store 3 108].
Proof.
  destruct (assemble_image_trace [18; 52] [1; 2; 3; 4] 2 2) as (m & E & _ & A);
    [lia | lia | reflexivity | lia | reflexivity | vm_compute; discriminate |].
  exists m. split; [exact E|]. rewrite A. reflexivity.
Defined.
